(** * az-sdk-gen: the spec-file selector, the version ranker, the bulk
    command and the scaffold entry file

    A shallow embedding of the logic-bearing parts of
    [packages/sdk-gen/src/github.ts], [packages/sdk-gen/src/index.ts] and
    [packages/sdk-gen/src/scaffold.ts].

    Conventions.
    - A JavaScript string is a [string]; the operations used by the code
      (equality, concatenation, the tests "is an ASCII digit", "is this
      ASCII letter in either case", "starts with @") read the same on the
      UTF-8 bytes as on the UTF-16 code units.
    - An optional parameter ([fileOverride?: string], [scope?: string]) is an
      [option string]; [None] is [undefined].
    - [throw new Error(msg)] is the completion [Throw]; a normal return is
      [Return]. *)

From Stdlib Require Import ZArith Lia Ascii.
From Stdlib Require OrderedTypeEx.
From stdpp Require Import base option list strings gmap sorting.

(** ** Completions *)

Inductive completion (E A : Type) : Type :=
| Return (a : A)
| Throw (e : E).

Arguments Return {E A} a.
Arguments Throw {E A} e.

(** ** The JavaScript runtime functions the code relies on *)

Module Js.

Definition dquote : string := String (Ascii.ascii_of_nat 34) EmptyString.
Definition newline : string := String (Ascii.ascii_of_nat 10) EmptyString.

(** [if (x)] on an optional string: [undefined] and the empty string are
    falsy, every other string is truthy. *)
Definition truthy (x : option string) : bool :=
  match x with
  | None => false
  | Some s => negb (bool_decide (s = ""))
  end.

(** [xs.includes(x)] on an array of strings. *)
Definition includes (xs : list string) (x : string) : bool :=
  bool_decide (x ∈ xs).

(** [xs.join(sep)]. *)
Fixpoint join (sep : string) (xs : list string) : string :=
  match xs with
  | [] => ""
  | [x] => x
  | x :: rest => x +:+ sep +:+ join sep rest
  end.

(** [s.startsWith("@")]. *)
Definition startsWithAt (s : string) : bool :=
  match s with
  | String c _ => bool_decide (c = "@"%char)
  | EmptyString => false
  end.

(** ASCII classification of a code unit. *)
Definition isDigit (c : ascii) : bool :=
  let n := Ascii.nat_of_ascii c in
  (48 <=? n)%nat && (n <=? 57)%nat.

(** Canonicalisation of a code unit under the [i] flag: an ASCII lower-case
    letter becomes its upper-case letter, every other unit is itself. *)
Definition canonicalize (c : ascii) : ascii :=
  let n := Ascii.nat_of_ascii c in
  if (97 <=? n)%nat && (n <=? 122)%nat then Ascii.ascii_of_nat (n - 32) else c.

(** The literal [p] matches case-insensitively at the start of [s]. *)
Fixpoint matchesAtCI (p s : string) : bool :=
  match p, s with
  | EmptyString, _ => true
  | String _ _, EmptyString => false
  | String a p', String b s' =>
      bool_decide (canonicalize a = canonicalize b) && matchesAtCI p' s'
  end.

(** [/p1|p2|.../i.test(s)] for literal alternatives: some alternative matches
    at some position of [s]. *)
Fixpoint regexTestCI (alts : list string) (s : string) : bool :=
  existsb (λ p, matchesAtCI p s) alts ||
  match s with
  | EmptyString => false
  | String _ rest => regexTestCI alts rest
  end.

(** [s.split(/[^0-9]+/)]: the pieces between the maximal runs of non-digits.
    [cur] is the piece being read and [inSep] tells that the previous unit
    belonged to a separator run.  A separator at either end leaves an empty
    piece there, and the empty string splits into one empty piece. *)
Fixpoint splitGo (cur : string) (inSep : bool) (s : string) : list string :=
  match s with
  | EmptyString => [cur]
  | String c rest =>
      if isDigit c then splitGo (cur +:+ String c EmptyString) false rest
      else if inSep then splitGo cur true rest
      else cur :: splitGo EmptyString true rest
  end.

Definition splitNonDigits (s : string) : list string :=
  splitGo EmptyString false s.

(** [parseInt(x, 10)] on a string that begins with decimal digits: the value
    of the leading digits.  The pieces it is applied to are non-empty runs
    of digits, so the NaN case does not arise; the value is kept exact, which
    is the double the runtime computes when it is below 2^53.  [Ieee] below
    reads the digits as the runtime does for every value. *)
Fixpoint parseDigits (acc : Z) (s : string) : Z :=
  match s with
  | EmptyString => acc
  | String c rest =>
      if isDigit c
      then parseDigits (10 * acc + (Z.of_nat (Ascii.nat_of_ascii c) - 48))%Z rest
      else acc
  end.

Definition parseInt10 (s : string) : Z := parseDigits 0%Z s.

(** [xs.sort(cmp)]: the sort is stable, and for a consistent comparator its
    result is the one permutation that is ordered by [cmp] and keeps equal
    elements in their input order; insertion from the right computes it. *)
Fixpoint insertBy {A : Type} (cmp : A → A → Z) (x : A) (l : list A) : list A :=
  match l with
  | [] => [x]
  | y :: rest =>
      if (cmp x y <=? 0)%Z then x :: l else y :: insertBy cmp x rest
  end.

Fixpoint sort {A : Type} (cmp : A → A → Z) (l : list A) : list A :=
  match l with
  | [] => []
  | x :: rest => insertBy cmp x (sort cmp rest)
  end.

(** Arrays are heap objects: an array value is an address into a store of
    element lists.  [xs.slice()] allocates a fresh array with the same
    elements, [xs.sort(cmp)] reorders the array at its address in place and
    returns that address, [xs[0]] reads. *)
Abbreviation heap := (gmap nat (list string)).

Definition elements (h : heap) (xs : nat) : list string :=
  default [] (h !! xs).

Definition slice (xs : nat) (h : heap) : nat * heap :=
  let copy := fresh (dom h) in
  (copy, <[copy := elements h xs]> h).

Definition sortInPlace (cmp : string → string → Z) (xs : nat) (h : heap)
    : nat * heap :=
  (xs, alter (sort cmp) xs h).

(** Interpolation of a possibly [undefined] string into a template. *)
Definition str (x : option string) : string := default "undefined" x.

End Js.

(** ** github.ts *)

Module Github.

(** The three [throw] sites of [pickSpecFile], in source order, with the
    values their messages interpolate. *)
Inductive PickError : Type :=
| OverrideNotListed (fileOverride : string) (jsons : list string)
| NoJsons
| SeveralJsons (jsons : list string).

(** The text handed to [new Error(...)] at each site. *)
Definition message (e : PickError) : string :=
  match e with
  | OverrideNotListed f jsons =>
      "--file " +:+ Js.dquote +:+ f +:+ Js.dquote +:+
      " no existe. Disponibles: " +:+ Js.join ", " jsons
  | NoJsons => "No hay JSONs en ese directorio."
  | SeveralJsons jsons =>
      "Hay varios JSONs y no puedo elegir de forma segura. Usa --file." +:+
      Js.newline +:+ "Disponibles: " +:+ Js.join ", " jsons
  end.

(** The error kinds of the specification (section 7). *)
Inductive ErrorKind : Type :=
| NotFound
| AmbiguousSelection
| UpstreamRequestFailed
| GeneratorFailed.

(** Which kind each failure of [pickSpecFile] is: a missing override and an
    empty directory are NotFound, several candidates without a safe default
    are AmbiguousSelection. *)
Definition kind (e : PickError) : ErrorKind :=
  match e with
  | OverrideNotListed _ _ => NotFound
  | NoJsons => NotFound
  | SeveralJsons _ => AmbiguousSelection
  end.

(** [for (const p of preferred) if (jsons.includes(p)) return p;] *)
Fixpoint firstIncluded (jsons preferred : list string) : option string :=
  match preferred with
  | [] => None
  | p :: rest => if Js.includes jsons p then Some p else firstIncluded jsons rest
  end.

Definition preferred (api : string) : list string :=
  [api +:+ ".json"; api +:+ "s.json"].

Definition pickSpecFile (api : string) (jsons : list string)
    (fileOverride : option string) : completion PickError string :=
  match (if Js.truthy fileOverride then fileOverride else None) with
  | Some f =>
      let ok := Js.includes jsons f in
      if negb ok then Throw (OverrideNotListed f jsons)
      else Return f
  | None =>
      match jsons with
      | [] => Throw NoJsons
      | [j] => Return j
      | _ =>
          match firstIncluded jsons (preferred api) with
          | Some p => Return p
          | None => Throw (SeveralJsons jsons)
          end
      end
  end.

End Github.

(** ** index.ts: package naming and the version ranker *)

Module Cli.

Definition normalizeScope (scope : option string) : string :=
  if negb (Js.truthy scope) then ""
  else
    let s := default "" scope in
    if negb (Js.startsWithAt s) then "@" +:+ s else s.

(** [baseName] and [pkgName] of the [generate] and [generate-latest]
    actions. *)
Definition baseName (api apiVersion : string) : string :=
  "azure-devops-" +:+ api +:+ "-" +:+ apiVersion.

Definition pkgName (scopeOpt : option string) (api apiVersion : string) : string :=
  let scope := normalizeScope scopeOpt in
  if Js.truthy (Some scope) then scope +:+ "/" +:+ baseName api apiVersion
  else baseName api apiVersion.

(** The alternatives of the regular expression [/preview|beta|rc/i]. *)
Definition markers : list string := ["preview"; "beta"; "rc"].

(** [!/preview|beta|rc/i.test(v)]: no alternative matches at any position,
    letters compared after canonicalisation to upper case. *)
Definition isStableVersion (v : string) : bool :=
  negb (Js.regexTestCI markers v).

(** [v.split(/[^0-9]+/).filter(Boolean).map((x) => parseInt(x, 10))] *)
Definition versionTokens (v : string) : list Z :=
  map Js.parseInt10 (filter (λ x, Js.truthy (Some x) = true) (Js.splitNonDigits v)).

Section Ranker.

(** [a.localeCompare(b)] of the host: negative, zero or positive. *)
Variable localeCompare : string → string → Z.

(** The [for] loop of [compareVersionsDesc]: [n] iterations are left, the
    index is [i]; [Some d] is an early [return d]. *)
Fixpoint tokenLoop (ta tb : list Z) (n i : nat) : option Z :=
  match n with
  | O => None
  | S n' =>
      let va := nth i ta 0%Z in
      let vb := nth i tb 0%Z in
      if bool_decide (va ≠ vb) then Some (vb - va)%Z
      else tokenLoop ta tb n' (S i)
  end.

Definition compareVersionsDesc (a b : string) : Z :=
  let sa := isStableVersion a in
  let sb := isStableVersion b in
  if bool_decide (sa ≠ sb) then (if sa then -1 else 1)%Z
  else
    let ta := versionTokens a in
    let tb := versionTokens b in
    let len := Nat.max (length ta) (length tb) in
    match tokenLoop ta tb len 0 with
    | Some d => d
    | None => localeCompare b a
    end.

(** [versions.slice().sort(compareVersionsDesc)], the ranking. *)
Definition rankDescending (versions : list string) : list string :=
  Js.sort compareVersionsDesc versions.

Definition pickLatest (versions : list string) : option string :=
  let sorted := rankDescending versions in
  head sorted.

End Ranker.

End Cli.

(** ** index.ts: the comparator on the Numbers of the runtime

    The tokens of a label are Numbers, that is doubles.  [Cli.versionTokens]
    keeps their values exact, which is what the runtime holds as long as
    every run of digits reads below 2^53.  This module reads the runs as the
    runtime does whatever their length: [parseInt(x, 10)] is the double
    nearest to the integer the digits denote, and the subtraction of the
    early [return] is the subtraction of doubles.  (For a run of more than
    20 significant digits the language lets an implementation drop the
    digits after the 20th before rounding; the statements below use no such
    run.) *)

Module Ieee.

(** The Numbers that [parseInt] on digits and one subtraction produce: a
    finite double whose value is the integer [z], an infinity, or NaN. *)
Inductive number : Type :=
| Num (z : Z)
| Infinity
| NegInfinity
| NaN.

(** The double nearest to the natural number [z], a tie going to the even
    significand.  Below 2^53 every integer is a double; from there on the
    significand keeps 53 bits, [e] being the weight of its last bit, and
    what reaches 2^1024 is [Infinity]. *)
Definition roundNat (z : Z) : number :=
  if (z <? 2 ^ 53)%Z then Num z
  else
    let e := (Z.log2 z - 52)%Z in
    let q := (z / 2 ^ e)%Z in
    let r := (z mod 2 ^ e)%Z in
    let half := (2 ^ (e - 1))%Z in
    let up := (half <? r)%Z || ((r =? half)%Z && Z.odd q) in
    let v := ((if up then q + 1 else q) * 2 ^ e)%Z in
    if (v <? 2 ^ 1024)%Z then Num v else Infinity.

Definition negate (x : number) : number :=
  match x with
  | Num z => Num (- z)
  | Infinity => NegInfinity
  | NegInfinity => Infinity
  | NaN => NaN
  end.

(** The Number for an integer. *)
Definition ofZ (z : Z) : number :=
  if (z <? 0)%Z then negate (roundNat (- z)) else roundNat z.

(** [x - y]: the exact difference of two finite doubles, rounded. *)
Definition sub (x y : number) : number :=
  match x, y with
  | NaN, _ | _, NaN => NaN
  | Num a, Num b => ofZ (a - b)
  | Infinity, Infinity | NegInfinity, NegInfinity => NaN
  | Infinity, _ | _, NegInfinity => Infinity
  | NegInfinity, _ | _, Infinity => NegInfinity
  end.

(** [x !== y]: NaN differs from every Number, itself included. *)
Definition strictNotEqual (x y : number) : bool :=
  match x, y with
  | Num a, Num b => bool_decide (a ≠ b)
  | Infinity, Infinity | NegInfinity, NegInfinity => false
  | _, _ => true
  end.

(** [parseInt(x, 10)] on a non-empty run of digits. *)
Definition parseInt10 (s : string) : number := ofZ (Js.parseDigits 0%Z s).

(** [v.split(/[^0-9]+/).filter(Boolean).map((x) => parseInt(x, 10))] *)
Definition versionTokens (v : string) : list number :=
  map parseInt10 (filter (λ x, Js.truthy (Some x) = true) (Js.splitNonDigits v)).

Section Ranker.

(** [a.localeCompare(b)] of the host: a negative integer, zero or a positive
    one. *)
Variable localeCompare : string → string → Z.

(** The [for] loop of [compareVersionsDesc]; [ta[i] ?? 0] is [Num 0] past the
    end of [ta]. *)
Fixpoint tokenLoop (ta tb : list number) (n i : nat) : option number :=
  match n with
  | O => None
  | S n' =>
      let va := nth i ta (Num 0) in
      let vb := nth i tb (Num 0) in
      if strictNotEqual va vb then Some (sub vb va)
      else tokenLoop ta tb n' (S i)
  end.

Definition compareVersionsDesc (a b : string) : number :=
  let sa := Cli.isStableVersion a in
  let sb := Cli.isStableVersion b in
  if bool_decide (sa ≠ sb) then (if sa then Num (-1) else Num 1)
  else
    let ta := versionTokens a in
    let tb := versionTokens b in
    let len := Nat.max (length ta) (length tb) in
    match tokenLoop ta tb len 0 with
    | Some d => d
    | None => Num (localeCompare b a)
    end.

End Ranker.

(** How [sort] reads the result of a comparator: negative places [a] first
    ([Lt]), positive places [b] first ([Gt]), and anything else, NaN
    included, leaves the two as they are ([Eq]). *)
Definition sign (x : number) : comparison :=
  match x with
  | Num z => (z ?= 0)%Z
  | Infinity => Gt
  | NegInfinity => Lt
  | NaN => Eq
  end.

End Ieee.

(** ** The selector and the ranker on the array store

    [pickSpecFile] only reads its array argument; [pickLatest] copies its
    argument with [slice] and sorts the copy. *)

Module OnHeap.

Definition pickSpecFile (api : string) (jsons : nat)
    (fileOverride : option string) (h : Js.heap)
    : completion Github.PickError string * Js.heap :=
  (Github.pickSpecFile api (Js.elements h jsons) fileOverride, h).

Definition pickLatest (localeCompare : string → string → Z) (versions : nat)
    (h : Js.heap) : option string * Js.heap :=
  let '(copy, h1) := Js.slice versions h in
  let '(sorted, h2) := Js.sortInPlace (Cli.compareVersionsDesc localeCompare) copy h1 in
  (head (Js.elements h2 sorted), h2).

End OnHeap.

(** ** index.ts: the [generate-latest] action

    The action talks to the upstream repository, the file system and the
    generator.  These are kept abstract: an environment gives, for each
    external step, its completion (a value or a thrown error message) and the
    next state of the outside world.  The program itself is written in a
    state monad that threads the outside world and records what can be
    observed from outside: the external calls and the calls of the console.

    [Stdout text] is a call [console.log(text)] and [Stderr text] a call
    [console.error(text)] made by the action; the console writes the text
    and a line break, and the text may hold line breaks of its own (the
    message of an error can).  The generator is a child process on the
    streams of the action: what it writes there is not an event. *)

Module Bulk.

Record Options : Type := {
  ref : string;
  out : string;
  scope : option string;
  pkgVersion : string;
  cache : bool
}.

(** The external steps of one iteration, in source order:
    [listVersions(api, ref)], [listJsonFiles(api, latest, ref)], the cache
    look-up or download of the chosen document (giving [specPath]), the
    generator run in a fresh temporary directory (giving [genOut]), and the
    copy into the output directory followed by [scaffoldPackage] (giving
    [finalDir]). *)
Record Env : Type := {
  W : Type;
  localeCompare : string → string → Z;
  listApis : string → W → completion string (list string) * W;
  listVersions : string → string → W → completion string (list string) * W;
  listJsonFiles :
    string → string → string → W → completion string (list string) * W;
  obtainSpec :
    Options → string → string → string → W → completion string string * W;
  generateSdk : string → W → completion string string * W;
  installPackage :
    Options → string → string → string → string → string → W →
    completion string string * W
}.

Inductive Event : Type :=
| CallListApis (ref : string)
| CallListVersions (api ref : string)
| CallListJsonFiles (api version ref : string)
| CallObtainSpec (api version file : string)
| CallGenerateSdk (specPath : string)
| CallInstallPackage (genOut baseName pkgName : string)
| Stdout (line : string)
| Stderr (line : string).

(** How a statement completes: normally with a value, by [continue], by a
    thrown error (its message), or by [process.exit(code)]. *)
Inductive outcome (A : Type) : Type :=
| Normal (a : A)
| Continue
| Thrown (msg : string)
| Exit (code : Z).

Arguments Normal {A} a.
Arguments Continue {A}.
Arguments Thrown {A} msg.
Arguments Exit {A} code.

Section Action.

Variable env : Env.

Record State : Type := {
  world : W env;
  trace : list Event
}.

Definition M (A : Type) : Type := State → outcome A * State.

Definition ret {A : Type} (a : A) : M A := λ s, (Normal a, s).

Definition bind {A B : Type} (m : M A) (k : A → M B) : M B :=
  λ s,
    match m s with
    | (Normal a, s') => k a s'
    | (Continue, s') => (Continue, s')
    | (Thrown msg, s') => (Thrown msg, s')
    | (Exit code, s') => (Exit code, s')
    end.

Notation "'let*' x ':=' m 'in' k" := (bind m (λ x, k))
  (at level 10, x name, m at level 100, k at level 200).

Definition continue {A : Type} : M A := λ s, (Continue, s).
Definition throw {A : Type} (msg : string) : M A := λ s, (Thrown msg, s).
Definition exit {A : Type} (code : Z) : M A := λ s, (Exit code, s).

Definition emit (e : Event) : M unit :=
  λ s, (Normal tt, {| world := world s; trace := trace s ++ [e] |}).

Definition consoleLog (line : string) : M unit := emit (Stdout line).
Definition consoleError (line : string) : M unit := emit (Stderr line).

(** An external step: the call is recorded, the environment answers. *)
Definition call {A : Type} (e : Event)
    (step : W env → completion string A * W env) : M A :=
  λ s,
    let '(r, w) := step (world s) in
    let s' := {| world := w; trace := trace s ++ [e] |} in
    match r with
    | Return a => (Normal a, s')
    | Throw msg => (Thrown msg, s')
    end.

(** [try { m } catch (e) { handler(e?.message ?? String(e)) }] *)
Definition tryCatch {A : Type} (m : M A) (handler : string → M A) : M A :=
  λ s,
    match m s with
    | (Thrown msg, s') => handler msg s'
    | r => r
    end.

(** A pure call of [pickSpecFile]; its error is thrown with its message. *)
Definition pickSpecFileM (api : string) (jsons : list string)
    (fileOverride : option string) : M string :=
  match Github.pickSpecFile api jsons fileOverride with
  | Return chosen => ret chosen
  | Throw e => throw (Github.message e)
  end.

(** [die(msg)] of utils.ts. *)
Definition die {A : Type} (msg : string) : M A :=
  let* _ := consoleError ("❌ " +:+ msg) in exit 1.

(** [for (const x of xs) body(x)]: [continue] and normal completion of the
    body go on to the next element, a throw or an exit leaves the loop. *)
Fixpoint forOf {A : Type} (xs : list A) (body : A → M unit) : M unit :=
  match xs with
  | [] => ret tt
  | x :: rest =>
      λ s,
        match body x s with
        | (Normal _, s') => forOf rest body s'
        | (Continue, s') => forOf rest body s'
        | (Thrown msg, s') => (Thrown msg, s')
        | (Exit code, s') => (Exit code, s')
        end
  end.

(** The statements of the inner [try] block (index.ts lines 205-256). *)
Definition tryBlock (opts : Options) (api : string) : M unit :=
  let* versions := call (CallListVersions api (ref opts))
                  (listVersions env api (ref opts)) in
  if bool_decide (length versions = 0) then continue
  else
    let latest := Js.str (Cli.pickLatest (localeCompare env) versions) in
    let* jsons := call (CallListJsonFiles api latest (ref opts))
                 (listJsonFiles env api latest (ref opts)) in
    let* chosen := tryCatch (pickSpecFileM api jsons None) (λ _, continue) in
    let* specPath := call (CallObtainSpec api latest chosen)
                    (obtainSpec env opts api latest chosen) in
    let* genOut := call (CallGenerateSdk specPath) (generateSdk env specPath) in
    let baseName := Cli.baseName api latest in
    let pkgName := Cli.pkgName (scope opts) api latest in
    let* finalDir := call (CallInstallPackage genOut baseName pkgName)
                    (installPackage env opts api latest genOut baseName pkgName) in
    consoleLog (api +:+ "@" +:+ latest +:+ " → " +:+ finalDir).

(** One iteration of the loop: the [try] block and its [catch]. *)
Definition iteration (opts : Options) (api : string) : M unit :=
  tryCatch (tryBlock opts api)
           (λ msg, consoleError ("Error en " +:+ api +:+ ": " +:+ msg)).

Definition loop (opts : Options) (apis : list string) : M unit :=
  forOf apis (iteration opts).

(** The whole action (index.ts lines 199-265). *)
Definition generateLatest (opts : Options) : M unit :=
  tryCatch
    (let* apis := call (CallListApis (ref opts)) (listApis env (ref opts)) in
     let* _ := loop opts apis in
     consoleLog "Finalizado.")
    (λ msg, die msg).

(** The APIs for which the upstream was asked for versions, in order. *)
Fixpoint versionRequests (t : list Event) : list string :=
  match t with
  | [] => []
  | CallListVersions api _ :: rest => api :: versionRequests rest
  | _ :: rest => versionRequests rest
  end.

(** The lines written to standard error, in order. *)
Fixpoint errorLines (t : list Event) : list string :=
  match t with
  | [] => []
  | Stderr line :: rest => line :: errorLines rest
  | _ :: rest => errorLines rest
  end.

End Action.

End Bulk.

(** ** scaffold.ts

    A path is the list of its segments ([path.join(a, "x", "y")] appends the
    segments [x] and [y]); the file system maps the paths that exist to a
    directory or to a file with its content.  A call of [node:fs] that fails
    throws, which aborts [scaffoldPackage]: the functions below return
    [None] then.  The failures decided here are those that come from what
    lies at the paths: a file where a directory is needed, a directory where
    a file is written.  A call can fail for reasons outside the tree as well
    (permissions, a read-only or full disk); [Some] is the tree left by calls
    that did not fail. *)

Module Scaffold.

Inductive node : Type :=
| Dir
| File (content : string).

Abbreviation fs := (gmap (list string) node).

(** The values passed to [JSON.stringify]. *)
#[local] Unset Elimination Schemes.
Inductive json : Type :=
| JString (s : string)
| JBool (b : bool)
| JArray (items : list json)
| JObject (fields : list (string * json)).
#[local] Set Elimination Schemes.

Record ScaffoldOptions : Type := {
  packageDir : list string;
  packageName : string;
  packageVersion : string;
  description : string
}.

(** [fileExists(p)]: [fs.existsSync(p)], true of files and of directories. *)
Definition fileExists (d : fs) (p : list string) : bool :=
  bool_decide (is_Some (d !! p)).

(** [fs.mkdirSync(p, { recursive: true })]: every missing directory on the
    way to [p] is created; a file on the way makes the call throw. *)
Fixpoint mkdirs (parent todo : list string) (d : fs) : option fs :=
  match todo with
  | [] => Some d
  | seg :: rest =>
      let here := parent ++ [seg] in
      match d !! here with
      | Some (File _) => None
      | Some Dir => mkdirs here rest d
      | None => mkdirs here rest (<[here := Dir]> d)
      end
  end.

Definition ensureDir (p : list string) (d : fs) : option fs :=
  mkdirs [] p d.

(** [writeFile(p, content)] of utils.ts: the parent directory is ensured,
    then the file is created or replaced; writing onto a directory throws. *)
Definition writeFile (p : list string) (content : string) (d : fs) : option fs :=
  d1 ← ensureDir (removelast p) d;
  match d1 !! p with
  | Some Dir => None
  | _ => Some (<[p := File content]> d1)
  end.

Definition exportFrom (target : string) : string :=
  "export * from " +:+ Js.dquote +:+ target +:+ Js.dquote +:+ ";".

Definition entryFrom (usesSrcLayout : bool) (p : string) : string :=
  if usesSrcLayout then "./src/" +:+ p else "./" +:+ p.

Definition noEntrypointComment (usesSrcLayout : bool) : string :=
  "// No known entrypoints were detected. Inspect generated sources under "
  +:+ (if usesSrcLayout then "./src" else "./").

(** The array [exportsLines] as the pushes of lines 102-121 build it. *)
Definition exportsLines
    (hasApisIndex hasModelsIndex hasConfiguration hasRuntime
     usesSrcLayout fallbackSrcIndex : bool) : list string :=
  let lines := [] in
  let lines := lines ++ ["// Auto-generated entrypoint."] in
  let lines := lines ++ ["// Do not edit manually." +:+ Js.newline] in
  let lines :=
    if hasApisIndex
    then lines ++ [exportFrom (entryFrom usesSrcLayout "apis/index.js")]
    else lines in
  let lines :=
    if hasModelsIndex
    then lines ++ [exportFrom (entryFrom usesSrcLayout "models/index.js")]
    else lines in
  let lines :=
    if hasConfiguration
    then lines ++ [exportFrom (entryFrom usesSrcLayout "configuration.js")]
    else lines in
  let lines :=
    if hasRuntime
    then lines ++ [exportFrom (entryFrom usesSrcLayout "runtime.js")]
    else lines in
  let lines :=
    if bool_decide (length lines ≤ 2) && fallbackSrcIndex
    then lines ++ [exportFrom "./src/index.js"]
    else lines in
  let lines :=
    if bool_decide (length lines ≤ 2)
    then lines ++ [noEntrypointComment usesSrcLayout]
    else lines in
  lines.

Definition packageJson (opts : ScaffoldOptions) : json :=
  JObject [
    ("name", JString (packageName opts));
    ("version", JString (packageVersion opts));
    ("description", JString (description opts));
    ("type", JString "module");
    ("main", JString "./dist/index.js");
    ("types", JString "./dist/index.d.ts");
    ("exports", JObject [
       (".", JObject [
          ("types", JString "./dist/index.d.ts");
          ("import", JString "./dist/index.js")])]);
    ("files", JArray [JString "dist"]);
    ("scripts", JObject [("build", JString "tsc -p tsconfig.json")]);
    ("dependencies", JObject [])
  ].

Definition tsconfig : json :=
  JObject [
    ("compilerOptions", JObject [
       ("target", JString "ES2022");
       ("module", JString "NodeNext");
       ("moduleResolution", JString "NodeNext");
       ("outDir", JString "dist");
       ("rootDir", JString ".");
       ("declaration", JBool true);
       ("strict", JBool false);
       ("skipLibCheck", JBool true)]);
    ("include", JArray [JString "**/*.ts"]);
    ("exclude", JArray [JString "dist"; JString "node_modules"])
  ].

Definition readme (opts : ScaffoldOptions) : string :=
  Js.join Js.newline [
    "# " +:+ packageName opts;
    "";
    "SDK generated automatically from `MicrosoftDocs/vsts-rest-api-specs`.";
    "";
    "## Build";
    "```bash";
    "pnpm install";
    "pnpm build";
    "```";
    "";
    "## Usage";
    "```ts";
    "import { Configuration } from " +:+ Js.dquote +:+ packageName opts
      +:+ Js.dquote +:+ ";";
    "```";
    ""
  ].

Section ScaffoldPackage.

(** [JSON.stringify(value, null, 2)]. *)
Variable stringify : json → string.

Definition scaffoldPackage (opts : ScaffoldOptions) (d : fs) : option fs :=
  let dir := packageDir opts in
  d ← ensureDir dir d;
  let hasApisIndex :=
    fileExists d (dir ++ ["apis"; "index.ts"]) ||
    fileExists d (dir ++ ["src"; "apis"; "index.ts"]) in
  let hasModelsIndex :=
    fileExists d (dir ++ ["models"; "index.ts"]) ||
    fileExists d (dir ++ ["src"; "models"; "index.ts"]) in
  let hasConfiguration :=
    fileExists d (dir ++ ["configuration.ts"]) ||
    fileExists d (dir ++ ["src"; "configuration.ts"]) in
  let hasRuntime :=
    fileExists d (dir ++ ["runtime.ts"]) ||
    fileExists d (dir ++ ["src"; "runtime.ts"]) in
  let usesSrcLayout :=
    fileExists d (dir ++ ["src"; "index.ts"]) ||
    fileExists d (dir ++ ["src"; "apis"]) ||
    fileExists d (dir ++ ["src"; "models"]) in
  d ← writeFile (dir ++ ["package.json"])
        (stringify (packageJson opts) +:+ Js.newline) d;
  d ← writeFile (dir ++ ["tsconfig.json"])
        (stringify tsconfig +:+ Js.newline) d;
  d ← writeFile (dir ++ ["README.md"]) (readme opts) d;
  let fallbackSrcIndex := fileExists d (dir ++ ["src"; "index.ts"]) in
  let lines :=
    exportsLines hasApisIndex hasModelsIndex hasConfiguration hasRuntime
      usesSrcLayout fallbackSrcIndex in
  writeFile (dir ++ ["index.ts"]) (Js.join Js.newline lines +:+ Js.newline) d.

End ScaffoldPackage.

End Scaffold.

(** ** The specification's own descriptions

    Definitions that follow the words of the specification, to be compared
    with the code above. *)

Module Spec.

(** Section 4.2, step 1: a label is stable when it contains none of the
    prerelease markers as a substring, letter case ignored. *)
Fixpoint upper (s : string) : string :=
  match s with
  | EmptyString => EmptyString
  | String c rest => String (Js.canonicalize c) (upper rest)
  end.

Definition containsCI (marker v : string) : Prop :=
  ∃ before found after,
    v = before +:+ found +:+ after ∧ upper found = upper marker.

Definition stable (v : string) : Prop :=
  ∀ marker, marker ∈ ["preview"; "beta"; "rc"] → ¬ containsCI marker v.

(** A string made of decimal digits only. *)
Fixpoint allDigits (s : string) : bool :=
  match s with
  | EmptyString => true
  | String c rest => Js.isDigit c && allDigits rest
  end.

(** The value of the piece of digits being read, if it is not empty. *)
Definition pieceValue (cur : string) : option Z :=
  if bool_decide (cur = "") then None else Some (Js.parseInt10 cur).

(** Section 4.2, step 2: the runs of digits of a label, each read as an
    unsigned integer.  [cur] is the value of the run being read, if any. *)
Fixpoint digitRuns (cur : option Z) (s : string) : list Z :=
  match s with
  | EmptyString =>
      match cur with
      | Some n => [n]
      | None => []
      end
  | String c rest =>
      if Js.isDigit c then
        digitRuns
          (Some (10 * default 0%Z cur + (Z.of_nat (Ascii.nat_of_ascii c) - 48))%Z)
          rest
      else
        match cur with
        | Some n => n :: digitRuns None rest
        | None => digitRuns None rest
        end
  end.

Definition tokens (v : string) : list Z := digitRuns None v.

(** Missing trailing tokens are zero. *)
Definition padTo (n : nat) (ts : list Z) : list Z :=
  ts ++ replicate (n - length ts) 0%Z.

(** Lexicographic comparison of two sequences. *)
Fixpoint lexCompare (xs ys : list Z) : comparison :=
  match xs, ys with
  | [], [] => Eq
  | [], _ :: _ => Lt
  | _ :: _, [] => Gt
  | x :: xs', y :: ys' =>
      match (x ?= y)%Z with
      | Eq => lexCompare xs' ys'
      | c => c
      end
  end.

(** Section 4.2, steps 2 and 3, for two labels of one partition: [Lt] when
    [a] is ranked before [b], [Gt] when after, [Eq] when the ranking leaves
    them tied.  The higher numeric sequence comes first; on equal sequences
    the string comparison of the labels decides, reversed. *)
Definition order (localeCompare : string → string → Z) (a b : string)
    : comparison :=
  let n := Nat.max (length (tokens a)) (length (tokens b)) in
  match lexCompare (padTo n (tokens a)) (padTo n (tokens b)) with
  | Gt => Lt
  | Lt => Gt
  | Eq => (localeCompare b a ?= 0)%Z
  end.

(** Section 4.2, steps 2 and 3, said of the comparator as the runtime
    evaluates it: two labels of one partition are placed as [order] says. *)
Definition tokenOrderRule (localeCompare : string → string → Z) (a b : string)
    : Prop :=
  Cli.isStableVersion a = Cli.isStableVersion b →
  Ieee.sign (Ieee.compareVersionsDesc localeCompare a b)
  = order localeCompare a b.

(** Section 4.1, first bullet, for a present override. *)
Definition overrideRule (api : string) (jsons : list string)
    (override : string) : Prop :=
  (Github.pickSpecFile api jsons (Some override) = Return override
   ↔ override ∈ jsons) ∧
  (override ∉ jsons →
   Github.pickSpecFile api jsons (Some override)
   = Throw (Github.OverrideNotListed override jsons)).

(** The naming rule for a given [--scope] value. *)
Definition scopeRule (scope api apiVersion : string) : Prop :=
  Cli.pkgName (Some scope) api apiVersion =
  (if Js.startsWithAt scope then scope else "@" +:+ scope)
  +:+ "/azure-devops-" +:+ api +:+ "-" +:+ apiVersion.

(** Section 8, the two rankings of the fourth bullet. *)
Definition rankExamples (localeCompare : string → string → Z) : Prop :=
  Cli.rankDescending localeCompare ["7.1"; "7.2-preview"; "7.0"]
  = ["7.2"; "7.1"; "7.0"] ∧
  Cli.rankDescending localeCompare ["7.0"; "7.1-preview"; "7.2"]
  = ["7.2"; "7.0"; "7.1-preview"].

(** Sections 5 and 7 on the bulk command, for a failure of the selector: if
    the iteration for [api] reaches [pickSpecFile] and it fails, the
    iteration prints a line to standard error. *)
Definition selectionFailureLogged (env : Bulk.Env) (opts : Bulk.Options)
    (api : string) (s : Bulk.State env) : Prop :=
  ∀ versions jsons e s1 s2,
    Bulk.call env (Bulk.CallListVersions api (Bulk.ref opts))
      (Bulk.listVersions env api (Bulk.ref opts)) s = (Bulk.Normal versions, s1) →
    versions ≠ [] →
    (let latest := Js.str (Cli.pickLatest (Bulk.localeCompare env) versions) in
     Bulk.call env (Bulk.CallListJsonFiles api latest (Bulk.ref opts))
       (Bulk.listJsonFiles env api latest (Bulk.ref opts)) s1
     = (Bulk.Normal jsons, s2)) →
    Github.pickSpecFile api jsons None = Throw e →
    Bulk.errorLines (Bulk.trace env (Bulk.iteration env opts api s).2)
    ≠ Bulk.errorLines (Bulk.trace env s).

(** Section 6, the entry file: one re-export per known submodule that is
    present; without any, the generic entry file if it exists; without
    that, the comment. *)
Definition reexport (usesSrcLayout present : bool) (submodule : string)
    : list string :=
  if present
  then [Scaffold.exportFrom (Scaffold.entryFrom usesSrcLayout submodule)]
  else [].

Definition entryBody
    (hasApisIndex hasModelsIndex hasConfiguration hasRuntime
     usesSrcLayout fallbackSrcIndex : bool) : list string :=
  if hasApisIndex || hasModelsIndex || hasConfiguration || hasRuntime then
    reexport usesSrcLayout hasApisIndex "apis/index.js" ++
    reexport usesSrcLayout hasModelsIndex "models/index.js" ++
    reexport usesSrcLayout hasConfiguration "configuration.js" ++
    reexport usesSrcLayout hasRuntime "runtime.js"
  else if fallbackSrcIndex then [Scaffold.exportFrom "./src/index.js"]
  else [Scaffold.noEntrypointComment usesSrcLayout].

Definition entryHeader : list string :=
  ["// Auto-generated entrypoint."; "// Do not edit manually." +:+ Js.newline].

(** A known submodule is present in the generator's output when its file
    exists at the top of the package directory or under [src]. *)
Definition hasSubmodule (d : Scaffold.fs) (dir rel : list string) : bool :=
  Scaffold.fileExists d (dir ++ rel) ||
  Scaffold.fileExists d (dir ++ "src" :: rel).

Definition usesSrcLayout (d : Scaffold.fs) (dir : list string) : bool :=
  Scaffold.fileExists d (dir ++ ["src"; "index.ts"]) ||
  Scaffold.fileExists d (dir ++ ["src"; "apis"]) ||
  Scaffold.fileExists d (dir ++ ["src"; "models"]).

(** The entry file for the generator output found in [d] under [dir]. *)
Definition entryFile (d : Scaffold.fs) (dir : list string) : string :=
  Js.join Js.newline
    (entryHeader ++
     entryBody
       (hasSubmodule d dir ["apis"; "index.ts"])
       (hasSubmodule d dir ["models"; "index.ts"])
       (hasSubmodule d dir ["configuration.ts"])
       (hasSubmodule d dir ["runtime.ts"])
       (usesSrcLayout d dir)
       (Scaffold.fileExists d (dir ++ ["src"; "index.ts"])))
  +:+ Js.newline.

(** The number of lines of [lines] equal to [line]. *)
Definition occurrences (line : string) (lines : list string) : nat :=
  length (filter (λ l, l = line) lines).

End Spec.

(** ** Concrete instances used to exercise the statements *)

Module Sample.

(** A comparison of strings by code units, standing for the host's
    [localeCompare]. *)
Definition unitCompare (a b : string) : Z :=
  match String.compare a b with
  | Lt => (-1)%Z
  | Eq => 0%Z
  | Gt => 1%Z
  end.

(** An upstream with three APIs: the request for the versions of [graph]
    fails, the directory of [core] holds no JSON document, and [git] has the
    single document [git.json]. *)
Definition env : Bulk.Env := {|
  Bulk.W := unit;
  Bulk.localeCompare := unitCompare;
  Bulk.listApis := λ _ w, (Return ["graph"; "core"; "git"], w);
  Bulk.listVersions := λ api _ w,
    if bool_decide (api = "graph") then (Throw "HTTP 500", w)
    else (Return ["7.0"; "7.1"], w);
  Bulk.listJsonFiles := λ api _ _ w,
    if bool_decide (api = "core") then (Return [], w)
    else (Return [api +:+ ".json"], w);
  Bulk.obtainSpec := λ _ _ _ chosen w, (Return ("cache/" +:+ chosen), w);
  Bulk.generateSdk := λ _ w, (Return "tmp/gen", w);
  Bulk.installPackage := λ _ _ _ _ baseName _ w, (Return ("out/" +:+ baseName), w)
|}.

Definition opts : Bulk.Options := {|
  Bulk.ref := "master";
  Bulk.out := "packages/generated";
  Bulk.scope := None;
  Bulk.pkgVersion := "0.1.0";
  Bulk.cache := true
|}.

Definition start : Bulk.State env := Bulk.Build_State env tt [].

(** A generator output with an API layer and a runtime module at top level. *)
Definition generated : Scaffold.fs :=
  {[ ["pkg"] := Scaffold.Dir;
     ["pkg"; "apis"] := Scaffold.Dir;
     ["pkg"; "apis"; "index.ts"] := Scaffold.File "";
     ["pkg"; "runtime.ts"] := Scaffold.File "" ]}.

Definition scaffoldOpts : Scaffold.ScaffoldOptions := {|
  Scaffold.packageDir := ["pkg"];
  Scaffold.packageName := "azure-devops-graph-7.1";
  Scaffold.packageVersion := "0.1.0";
  Scaffold.description := "Azure DevOps graph SDK"
|}.

Definition stringify (j : Scaffold.json) : string := "{}".

(** An array store holding one array of candidates and one of versions. *)
Definition store : Js.heap :=
  {[ 0%nat := ["a.json"; "b.json"]; 1%nat := ["7.0"; "7.1-preview"; "7.2"] ]}.

End Sample.

(** ** github.ts: the raw URL of a document *)

Module Uri.

Definition OWNER : string := "MicrosoftDocs".
Definition REPO : string := "vsts-rest-api-specs".

(** The code units [encodeURIComponent] leaves as they are: ASCII letters,
    decimal digits and the marks [- _ . ! ~ * ' ( )]. *)
Definition isUnreserved (c : ascii) : bool :=
  let n := Ascii.nat_of_ascii c in
  ((65 <=? n)%nat && (n <=? 90)%nat) ||
  ((97 <=? n)%nat && (n <=? 122)%nat) ||
  Js.isDigit c ||
  bool_decide (c ∈ ["-"; "_"; "."; "!"; "~"; "*"; "'"; "("; ")"]%char).

(** An upper-case hexadecimal digit. *)
Definition hexDigit (n : nat) : ascii :=
  Ascii.ascii_of_nat (if (n <? 10)%nat then 48 + n else 55 + n).

(** [%XY] for one octet. *)
Definition percentEncode (c : ascii) : string :=
  let n := Ascii.nat_of_ascii c in
  String "%" (String (hexDigit (n / 16)) (String (hexDigit (n mod 16)) EmptyString)).

(** [encodeURIComponent(s)]: every octet of the UTF-8 form of [s] that is
    not unreserved is replaced by its percent escape.  (A string with a lone
    surrogate, on which the function throws, has no UTF-8 form.) *)
Fixpoint encodeURIComponent (s : string) : string :=
  match s with
  | EmptyString => EmptyString
  | String c rest =>
      (if isUnreserved c then String c EmptyString else percentEncode c)
      +:+ encodeURIComponent rest
  end.

Definition rawSpecUrl (api version file ref : string) : string :=
  "https://raw.githubusercontent.com/" +:+ OWNER +:+ "/" +:+ REPO +:+ "/" +:+
  encodeURIComponent ref +:+ "/specification/" +:+
  encodeURIComponent api +:+ "/" +:+
  encodeURIComponent version +:+ "/" +:+
  encodeURIComponent file.

End Uri.

(** ** github.ts: what the listings keep of the upstream answer

    [listApis], [listVersions] and [listJsonFiles] fetch a directory listing
    and keep part of it; the functions below are what they return for the
    fetched [items]. *)

Module Listing.

Inductive ItemType : Type :=
| file
| dir.

Record GitHubContentItem : Type := {
  name : string;
  path : string;
  sha : string;
  size : Z;
  type : ItemType;
  download_url : option string
}.

(** [i.type === "dir"] and [i.type === "file"]. *)
Definition isDir (i : GitHubContentItem) : bool :=
  match type i with
  | dir => true
  | file => false
  end.

Definition isFile (i : GitHubContentItem) : bool :=
  match type i with
  | file => true
  | dir => false
  end.

(** [s.toLowerCase()] on the ASCII letters.  The only other characters whose
    lower case holds an ASCII letter give [i] or [k], which do not occur in
    the suffix tested below. *)
Definition lowerUnit (c : ascii) : ascii :=
  let n := Ascii.nat_of_ascii c in
  if (65 <=? n)%nat && (n <=? 90)%nat then Ascii.ascii_of_nat (n + 32) else c.

Fixpoint toLowerCase (s : string) : string :=
  match s with
  | EmptyString => EmptyString
  | String c rest => String (lowerUnit c) (toLowerCase rest)
  end.

(** [s.endsWith(suffix)]. *)
Fixpoint endsWith (s suffix : string) : bool :=
  bool_decide (s = suffix) ||
  match s with
  | EmptyString => false
  | String _ rest => endsWith rest suffix
  end.

Section Listings.

(** The order of [xs.sort()] without a comparator (by code units). *)
Variable defaultCompare : string → string → Z.

(** [items.filter(i => i.type === "dir").map(i => i.name).sort()], the value
    of [listApis] and of [listVersions]. *)
Definition dirNames (items : list GitHubContentItem) : list string :=
  Js.sort defaultCompare
    (map name (filter (λ i, isDir i = true) items)).

(** The [jsons] of [listJsonFiles]. *)
Definition jsonNames (items : list GitHubContentItem) : list string :=
  Js.sort defaultCompare
    (map name
       (filter (λ i, isFile i && endsWith (toLowerCase (name i)) ".json" = true)
          items)).

End Listings.

End Listing.

(** ** index.ts: the [list] and [resolve] actions *)

Module Commands.

Section Actions.

Variable env : Bulk.Env.

Notation "'let*' x ':=' m 'in' k" := (Bulk.bind env m (λ x, k))
  (at level 10, x name, m at level 100, k at level 200).

(** [xs.forEach((x) => console.log(x))] *)
Fixpoint logEach (xs : list string) : Bulk.M env unit :=
  match xs with
  | [] => Bulk.ret env tt
  | x :: rest => let* _ := Bulk.consoleLog env x in logEach rest
  end.

(** The [list] action (index.ts lines 50-62). *)
Definition list (api : option string) (ref : string) : Bulk.M env unit :=
  Bulk.tryCatch env
    (if negb (Js.truthy api) then
       let* apis := Bulk.call env (Bulk.CallListApis ref) (Bulk.listApis env ref) in
       logEach apis
     else
       let a := default "" api in
       let* versions :=
         Bulk.call env (Bulk.CallListVersions a ref) (Bulk.listVersions env a ref) in
       logEach versions)
    (λ msg, Bulk.die env msg).

(** The [resolve] action (index.ts lines 71-81). *)
Definition resolve (api apiVersion ref : string) (file : option string)
    : Bulk.M env unit :=
  Bulk.tryCatch env
    (let* jsons :=
       Bulk.call env (Bulk.CallListJsonFiles api apiVersion ref)
         (Bulk.listJsonFiles env api apiVersion ref) in
     let* chosen := Bulk.pickSpecFileM env api jsons file in
     let url := Uri.rawSpecUrl api apiVersion chosen ref in
     let* _ := Bulk.consoleLog env chosen in
     Bulk.consoleLog env url)
    (λ msg, Bulk.die env msg).

End Actions.

End Commands.

(** ** index.ts: the [generate] action

    The external steps of [generate] are finer than those of the bulk
    action, because the console is written to between them: the test
    [fs.existsSync(cachePath)], the creation of the directory of the cached
    document ([ensureDir(path.dirname(cachePath))]), the download into the
    cache ([downloadSpecTo]), the creation of the temporary output directory
    ([tmpDir] and [ensureDir], giving [genOut]), the generator run, and the
    copy into the output directory followed by [scaffoldPackage] (giving
    [finalDir]).  [cachePathOf] is the [path.join] under
    [defaultCacheDir()]. *)

Module Generate.

Record Options : Type := {
  api : string;
  apiVersion : string;
  ref : string;
  file : option string;
  out : string;
  scope : option string;
  pkgVersion : string;
  cache : bool
}.

Record Env : Type := {
  base : Bulk.Env;
  cachePathOf : string → string → string → string → string;
  existsSync : string → Bulk.W base → bool;
  ensureParentDir : string → Bulk.W base → completion string unit * Bulk.W base;
  downloadSpecTo :
    string → string → Bulk.W base → completion string unit * Bulk.W base;
  makeGenDir : Bulk.W base → completion string string * Bulk.W base;
  runOpenApiGenerate :
    string → string → Bulk.W base → completion string unit * Bulk.W base;
  installGenerated :
    Options → string → string → string → string → Bulk.W base →
    completion string string * Bulk.W base
}.

Section Action.

Variable env : Env.

Notation "'let*' x ':=' m 'in' k" := (Bulk.bind (base env) m (λ x, k))
  (at level 10, x name, m at level 100, k at level 200).

(** A read of the outside world. *)
Definition inspect {A : Type} (f : Bulk.W (base env) → A) : Bulk.M (base env) A :=
  λ s, (Bulk.Normal (f (Bulk.world (base env) s)), s).

(** An external step that is not recorded in the trace. *)
Definition step {A : Type}
    (f : Bulk.W (base env) → completion string A * Bulk.W (base env))
    : Bulk.M (base env) A :=
  λ s,
    let '(r, w) := f (Bulk.world (base env) s) in
    let s' := Bulk.Build_State (base env) w (Bulk.trace (base env) s) in
    match r with
    | Return a => (Bulk.Normal a, s')
    | Throw msg => (Bulk.Thrown msg, s')
    end.

(** The statements of the [try] block (index.ts lines 96-157); the call of
    [downloadSpecTo] is recorded as [CallObtainSpec], the generator run as
    [CallGenerateSdk] and the installation as [CallInstallPackage].  When
    [ensureDir] throws, [downloadSpecTo] is not called. *)
Definition tryBlock (opts : Options) : Bulk.M (base env) unit :=
  let* jsons :=
    Bulk.call (base env)
      (Bulk.CallListJsonFiles (api opts) (apiVersion opts) (ref opts))
      (Bulk.listJsonFiles (base env) (api opts) (apiVersion opts) (ref opts)) in
  let* chosen := Bulk.pickSpecFileM (base env) (api opts) jsons (file opts) in
  let url := Uri.rawSpecUrl (api opts) (apiVersion opts) chosen (ref opts) in
  let cachePath :=
    cachePathOf env (ref opts) (api opts) (apiVersion opts) chosen in
  let* hit := inspect (existsSync env cachePath) in
  let* _ :=
    if cache opts && hit
    then Bulk.consoleLog (base env) ("🗃️  Cache hit: " +:+ cachePath)
    else
      let* _ :=
        Bulk.consoleLog (base env) ("⬇️  Descargando spec: " +:+ url) in
      let* _ := step (ensureParentDir env cachePath) in
      Bulk.call (base env)
        (Bulk.CallObtainSpec (api opts) (apiVersion opts) chosen)
        (downloadSpecTo env url cachePath) in
  let specPath := cachePath in
  let* genOut := step (makeGenDir env) in
  let* _ :=
    Bulk.consoleLog (base env) "⚙️  Generando SDK (typescript-fetch)…" in
  let* _ :=
    Bulk.call (base env) (Bulk.CallGenerateSdk specPath)
      (runOpenApiGenerate env specPath genOut) in
  let baseName := Cli.baseName (api opts) (apiVersion opts) in
  let pkgName := Cli.pkgName (scope opts) (api opts) (apiVersion opts) in
  let description :=
    "Azure DevOps " +:+ api opts +:+ " SDK (" +:+ apiVersion opts +:+
    ") generado desde vsts-rest-api-specs @ " +:+ ref opts in
  let* finalDir :=
    Bulk.call (base env) (Bulk.CallInstallPackage genOut baseName pkgName)
      (installGenerated env opts genOut baseName pkgName description) in
  let* _ := Bulk.consoleLog (base env) ("✅ Listo: " +:+ finalDir) in
  let* _ :=
    Bulk.consoleLog (base env)
      ("📦 Paquete: " +:+ pkgName +:+ "@" +:+ pkgVersion opts) in
  Bulk.consoleLog (base env)
    ("👉 Siguiente: (cd " +:+ finalDir +:+ " && pnpm i && pnpm build)").

(** The whole action (index.ts lines 94-161). *)
Definition generate (opts : Options) : Bulk.M (base env) unit :=
  Bulk.tryCatch (base env) (tryBlock opts) (λ msg, Bulk.die (base env) msg).

End Action.

(** The documents [downloadSpecTo] was called for, in order. *)
Fixpoint downloads (t : list Bulk.Event) : list string :=
  match t with
  | [] => []
  | Bulk.CallObtainSpec _ _ chosen :: rest => chosen :: downloads rest
  | _ :: rest => downloads rest
  end.

End Generate.

(** ** index.ts: the workspace root

    [probe dir] stands for the two tests of one round of the loop: whether
    [pnpm-workspace.yaml] exists in [dir], or [package.json] exists there and
    has a truthy [workspaces] field; reading or parsing [package.json] may
    throw.  A directory is the list of its segments, the root is the empty
    list and [path.dirname] drops the last segment (the root is its own
    parent). *)

Module Workspace.

Section Root.

Variable probe : list string → completion string bool.

(** The [while (true)] loop with [n] rounds allowed; [None] when they are
    used up. *)
Fixpoint climb (n : nat) (cwd dir : list string)
    : option (completion string (list string)) :=
  match n with
  | O => None
  | S n' =>
      match probe dir with
      | Throw msg => Some (Throw msg)
      | Return true => Some (Return dir)
      | Return false =>
          let parent := removelast dir in
          if bool_decide (parent = dir) then Some (Return cwd)
          else climb n' cwd parent
      end
  end.

Definition workspaceRootDir (cwd : list string)
    : option (completion string (list string)) :=
  climb (S (length cwd)) cwd cwd.

End Root.

End Workspace.

(** ** Further notions used in the statements *)

Module Notions.

(** The code unit [c] occurs in [s]. *)
Definition occurs (c : ascii) (s : string) : Prop :=
  ∃ before after, s = before +:+ String c after.

(** The texts of the calls of [console.log], in order. *)
Fixpoint logCalls (t : list Bulk.Event) : list string :=
  match t with
  | [] => []
  | Bulk.Stdout text :: rest => text :: logCalls rest
  | _ :: rest => logCalls rest
  end.

(** The texts of the calls of [console.error], in order. *)
Fixpoint errorCalls (t : list Bulk.Event) : list string :=
  match t with
  | [] => []
  | Bulk.Stderr text :: rest => text :: errorCalls rest
  | _ :: rest => errorCalls rest
  end.

(** The number of calls of [console.log] and [console.error]. *)
Definition consoleCalls (t : list Bulk.Event) : nat :=
  length (logCalls t) + length (errorCalls t).

(** The host's string comparison is consistent: swapping the arguments
    swaps the sign, and "not after" is transitive. *)
Definition consistent (cmp : string → string → Z) : Prop :=
  (∀ a b, Z.sgn (cmp a b) = (- Z.sgn (cmp b a))%Z) ∧
  (∀ a b c, (cmp a b ≤ 0)%Z → (cmp b c ≤ 0)%Z → (cmp a c ≤ 0)%Z).

(** The four files [scaffoldPackage] writes. *)
Definition scaffoldTargets (dir : list string) : list (list string) :=
  [dir ++ ["package.json"]; dir ++ ["tsconfig.json"];
   dir ++ ["README.md"]; dir ++ ["index.ts"]].

End Notions.

(** ** More concrete instances *)

Module Sample2.

Definition items : list Listing.GitHubContentItem :=
  [ {| Listing.name := "graph.json"; Listing.path := "specification/graph/7.1/graph.json";
       Listing.sha := "a1"; Listing.size := 10; Listing.type := Listing.file;
       Listing.download_url := None |};
    {| Listing.name := "httpExamples"; Listing.path := "specification/graph/7.1/httpExamples";
       Listing.sha := "b2"; Listing.size := 0; Listing.type := Listing.dir;
       Listing.download_url := None |};
    {| Listing.name := "Notes.JSON"; Listing.path := "specification/graph/7.1/Notes.JSON";
       Listing.sha := "c3"; Listing.size := 5; Listing.type := Listing.file;
       Listing.download_url := None |};
    {| Listing.name := "readme.md"; Listing.path := "specification/graph/7.1/readme.md";
       Listing.sha := "d4"; Listing.size := 7; Listing.type := Listing.file;
       Listing.download_url := None |} ].

(** A workspace whose marker is in [/home/me/repo]. *)
Definition probe (dir : list string) : completion string bool :=
  Return (bool_decide (dir = ["home"; "me"; "repo"])).

(** A machine on which the document of [git] is in the cache. *)
Definition generateEnv : Generate.Env := {|
  Generate.base := Sample.env;
  Generate.cachePathOf := λ ref api version chosen,
    "cache/" +:+ ref +:+ "/" +:+ api +:+ "/" +:+ version +:+ "/" +:+ chosen;
  Generate.existsSync := λ p _, bool_decide (p = "cache/master/git/7.1/git.json");
  Generate.ensureParentDir := λ _ w, (Return tt, w);
  Generate.downloadSpecTo := λ _ _ w, (Return tt, w);
  Generate.makeGenDir := λ w, (Return "tmp/gen", w);
  Generate.runOpenApiGenerate := λ _ _ w, (Return tt, w);
  Generate.installGenerated := λ _ _ baseName _ _ w, (Return ("out/" +:+ baseName), w)
|}.

(** The same machine with a cache directory that cannot be created. *)
Definition readOnlyEnv : Generate.Env := {|
  Generate.base := Sample.env;
  Generate.cachePathOf := Generate.cachePathOf generateEnv;
  Generate.existsSync := λ _ _, false;
  Generate.ensureParentDir := λ _ w, (Throw "EACCES: permission denied, mkdir", w);
  Generate.downloadSpecTo := λ _ _ w, (Return tt, w);
  Generate.makeGenDir := λ w, (Return "tmp/gen", w);
  Generate.runOpenApiGenerate := λ _ _ w, (Return tt, w);
  Generate.installGenerated := λ _ _ baseName _ _ w, (Return ("out/" +:+ baseName), w)
|}.

Definition generateOpts (cache : bool) : Generate.Options := {|
  Generate.api := "git";
  Generate.apiVersion := "7.1";
  Generate.ref := "master";
  Generate.file := None;
  Generate.out := "packages/generated";
  Generate.scope := Some "valdepeace";
  Generate.pkgVersion := "0.1.0";
  Generate.cache := cache
|}.

End Sample2.

(** * Properties *)

(** ** The spec-file selector *)

Section Selector.

Import Github.

Lemma truthy_nonempty (s : string) : s ≠ "" → Js.truthy (Some s) = true.
Proof.
  intros Hs. unfold Js.truthy. by rewrite bool_decide_eq_false_2.
Qed.

Lemma includes_elem_of (xs : list string) (x : string) :
  Js.includes xs x = true ↔ x ∈ xs.
Proof. unfold Js.includes. apply bool_decide_eq_true. Qed.

Lemma includes_not_elem_of (xs : list string) (x : string) :
  Js.includes xs x = false ↔ x ∉ xs.
Proof. unfold Js.includes. apply bool_decide_eq_false. Qed.

(** C1. Without an override: an empty candidate list fails with NotFound, a
    single candidate is returned, and among two or more candidates the first
    of [<key>.json], [<key>s.json] that is a member is returned; when neither
    is a member the call fails with AmbiguousSelection, and the message lists
    all candidates. *)
Theorem pickSpecFile_without_override (api : string) (jsons : list string) :
  (jsons = [] →
   pickSpecFile api jsons None = Throw NoJsons ∧ kind NoJsons = NotFound) ∧
  (∀ j, jsons = [j] → pickSpecFile api jsons None = Return j) ∧
  (2 ≤ length jsons →
   (api +:+ ".json" ∈ jsons →
    pickSpecFile api jsons None = Return (api +:+ ".json")) ∧
   (api +:+ ".json" ∉ jsons → api +:+ "s.json" ∈ jsons →
    pickSpecFile api jsons None = Return (api +:+ "s.json")) ∧
   (api +:+ ".json" ∉ jsons → api +:+ "s.json" ∉ jsons →
    pickSpecFile api jsons None = Throw (SeveralJsons jsons) ∧
    kind (SeveralJsons jsons) = AmbiguousSelection ∧
    message (SeveralJsons jsons) =
      "Hay varios JSONs y no puedo elegir de forma segura. Usa --file."
      +:+ Js.newline +:+ "Disponibles: " +:+ Js.join ", " jsons)).
Proof.
  split; [by intros ->|]. split; [by intros j ->|].
  intros Hlen.
  destruct jsons as [|j1 [|j2 rest]]; simpl in Hlen; [lia | lia |].
  unfold pickSpecFile, preferred; simpl.
  split; [|split].
  - intros Hin. apply includes_elem_of in Hin. by rewrite Hin.
  - intros Hout Hin.
    apply includes_not_elem_of in Hout. apply includes_elem_of in Hin.
    by rewrite Hout, Hin.
  - intros Hout1 Hout2.
    apply includes_not_elem_of in Hout1, Hout2.
    by rewrite Hout1, Hout2.
Qed.

Lemma pickSpecFile_without_override_witness :
  pickSpecFile "a" ["a.json"; "b.json"] None = Return "a.json" ∧
  pickSpecFile "a" ["x.json"; "y.json"] None
  = Throw (SeveralJsons ["x.json"; "y.json"]).
Proof.
  split.
  - destruct (pickSpecFile_without_override "a" ["a.json"; "b.json"])
      as (_ & _ & H).
    destruct H as (H & _); [simpl; lia|].
    apply H. apply (bool_decide_unpack _). vm_compute. exact I.
  - destruct (pickSpecFile_without_override "a" ["x.json"; "y.json"])
      as (_ & _ & H).
    destruct H as (_ & _ & H); [simpl; lia|].
    apply H; apply (bool_decide_unpack _); vm_compute; exact I.
Defined.

(** C2, as amended. For every candidate list and every non-empty override,
    the override is returned exactly when it is a candidate, and otherwise
    the call fails with NotFound, the error carrying all candidates. *)
Theorem pickSpecFile_nonempty_override (api : string) (jsons : list string)
    (override : string) :
  override ≠ "" →
  Spec.overrideRule api jsons override ∧
  kind (OverrideNotListed override jsons) = NotFound ∧
  message (OverrideNotListed override jsons) =
    "--file " +:+ Js.dquote +:+ override +:+ Js.dquote +:+
    " no existe. Disponibles: " +:+ Js.join ", " jsons.
Proof.
  intros Hne. split; [|done].
  unfold Spec.overrideRule, pickSpecFile.
  rewrite (truthy_nonempty _ Hne); simpl.
  destruct (Js.includes jsons override) eqn:Hin; simpl.
  - apply includes_elem_of in Hin. split; [done|]. by intros Hout.
  - apply includes_not_elem_of in Hin. split; [|done].
    split; [discriminate | done].
Qed.

Lemma pickSpecFile_nonempty_override_witness :
  Spec.overrideRule "a" ["a.json"; "b.json"] "b.json".
Proof.
  apply (pickSpecFile_nonempty_override "a" ["a.json"; "b.json"] "b.json").
  discriminate.
Defined.

(** C2, as stated, fails for the empty override: it is not a candidate of
    [a.json] alone, yet the call returns [a.json] instead of failing. *)
Lemma override_rule_counterexample :
  ¬ Spec.overrideRule "a" ["a.json"] "".
Proof.
  intros [_ H].
  assert (Hout : "" ∉ ["a.json"]).
  { apply (bool_decide_unpack _). vm_compute. exact I. }
  specialize (H Hout). vm_compute in H. discriminate.
Qed.

(** C10. An empty-string override is the same as no override: the call with
    the override [""] is the call without one, it never fails with the error
    of a missing override, whether or not [""] is a candidate, and it goes
    through the selection by number of candidates and by the two preferred
    names: an empty candidate list fails with NotFound, a single candidate is
    returned, and among two or more the first of [<key>.json], [<key>s.json]
    that is a member is returned, the call failing with AmbiguousSelection
    when neither is. *)
Theorem empty_override_is_no_override (api : string) (jsons : list string) :
  pickSpecFile api jsons (Some "") = pickSpecFile api jsons None ∧
  (∀ f shown, pickSpecFile api jsons (Some "") ≠ Throw (OverrideNotListed f shown)) ∧
  (jsons = [] →
   pickSpecFile api jsons (Some "") = Throw NoJsons ∧ kind NoJsons = NotFound) ∧
  (∀ j, jsons = [j] → pickSpecFile api jsons (Some "") = Return j) ∧
  (2 ≤ length jsons →
   (api +:+ ".json" ∈ jsons →
    pickSpecFile api jsons (Some "") = Return (api +:+ ".json")) ∧
   (api +:+ ".json" ∉ jsons → api +:+ "s.json" ∈ jsons →
    pickSpecFile api jsons (Some "") = Return (api +:+ "s.json")) ∧
   (api +:+ ".json" ∉ jsons → api +:+ "s.json" ∉ jsons →
    pickSpecFile api jsons (Some "") = Throw (SeveralJsons jsons) ∧
    kind (SeveralJsons jsons) = AmbiguousSelection)).
Proof.
  split; [reflexivity|]. split; [|split; [|split]].
  - intros f shown. unfold pickSpecFile; simpl.
    repeat case_match; discriminate.
  - by intros ->.
  - by intros j ->.
  - intros Hlen.
    destruct jsons as [|j1 [|j2 rest]]; simpl in Hlen; [lia | lia |].
    unfold pickSpecFile, preferred; simpl.
    split; [|split].
    + intros Hin. apply includes_elem_of in Hin. by rewrite Hin.
    + intros Hout Hin.
      apply includes_not_elem_of in Hout. apply includes_elem_of in Hin.
      by rewrite Hout, Hin.
    + intros Hout1 Hout2.
      apply includes_not_elem_of in Hout1, Hout2.
      by rewrite Hout1, Hout2.
Qed.

Lemma empty_override_is_no_override_witness :
  pickSpecFile "a" [""; "a.json"] (Some "") = Return "a.json" ∧
  pickSpecFile "a" [""; "x.json"] (Some "") = Throw (SeveralJsons [""; "x.json"]).
Proof.
  split.
  - destruct (empty_override_is_no_override "a" [""; "a.json"])
      as (_ & _ & _ & _ & H).
    destruct H as (H & _); [simpl; lia|].
    apply H. apply (bool_decide_unpack _). vm_compute. exact I.
  - destruct (empty_override_is_no_override "a" [""; "x.json"])
      as (_ & _ & _ & _ & H).
    destruct H as (_ & _ & H); [simpl; lia|].
    refine (proj1 (H _ _)); apply (bool_decide_unpack _); vm_compute; exact I.
Defined.

End Selector.

(** ** Package naming *)

Section Naming.

Import Cli.

Lemma normalizeScope_nonempty (scope : string) :
  scope ≠ "" →
  normalizeScope (Some scope) =
  (if Js.startsWithAt scope then scope else "@" +:+ scope) ∧
  normalizeScope (Some scope) ≠ "".
Proof.
  intros Hne. unfold normalizeScope.
  rewrite (truthy_nonempty _ Hne); simpl.
  destruct (Js.startsWithAt scope); simpl; [done|].
  split; [done | discriminate].
Qed.

(** C9, as amended. A non-empty scope that does not start with [@] gets [@]
    prepended and one that does is used as it is, and the package name is
    [<scope>/azure-devops-<api>-<version>]; without a scope, and with the
    empty scope, the package name is [azure-devops-<api>-<version>]. *)
Theorem pkgName_scope (scope api apiVersion : string) :
  scope ≠ "" →
  Spec.scopeRule scope api apiVersion ∧
  pkgName None api apiVersion = "azure-devops-" +:+ api +:+ "-" +:+ apiVersion ∧
  pkgName (Some "") api apiVersion
  = "azure-devops-" +:+ api +:+ "-" +:+ apiVersion.
Proof.
  intros Hne. split; [|done].
  unfold Spec.scopeRule, pkgName.
  destruct (normalizeScope_nonempty scope Hne) as [-> Hn].
  rewrite (truthy_nonempty _ Hn).
  unfold baseName. generalize (if Js.startsWithAt scope then scope else "@" +:+ scope).
  intros s. induction s as [|c s IH]; simpl; [done|]. by f_equal.
Qed.

Lemma pkgName_scope_witness :
  pkgName (Some "valdepeace") "graph" "7.1"
  = "@valdepeace/azure-devops-graph-7.1" ∧
  pkgName (Some "@valdepeace") "graph" "7.1"
  = "@valdepeace/azure-devops-graph-7.1".
Proof.
  split.
  - apply (pkgName_scope "valdepeace" "graph" "7.1"). discriminate.
  - apply (pkgName_scope "@valdepeace" "graph" "7.1"). discriminate.
Defined.

(** C9, as stated, fails for the empty scope: it does not start with [@],
    yet no [@] is prepended and the package name is left unscoped. *)
Lemma scope_rule_counterexample :
  ¬ Spec.scopeRule "" "graph" "7.1".
Proof. unfold Spec.scopeRule. vm_compute. discriminate. Qed.

End Naming.

(** ** The version ranker *)

Section Tokens.

Import Js.

Lemma matchesAtCI_spec (p s : string) :
  matchesAtCI p s = true ↔
  ∃ found after, s = found +:+ after ∧ Spec.upper found = Spec.upper p.
Proof.
  revert s. induction p as [|a p IH]; intros s; simpl.
  - split; [|done]. intros _. by exists EmptyString, s.
  - destruct s as [|b s].
    + split; [done|]. intros (found & after & Hs & Hup).
      destruct found; simpl in *; discriminate.
    + rewrite andb_true_iff, bool_decide_eq_true, IH. split.
      * intros (Hab & found & after & -> & Hup).
        exists (String b found), after. simpl. by rewrite Hup, Hab.
      * intros (found & after & Hs & Hup).
        destruct found as [|b' found]; simpl in *; [discriminate|].
        injection Hs as -> ->. injection Hup as Hc Hup.
        split; [done|]. by exists found, after.
Qed.

Lemma existsb_elem_of {A : Type} (f : A → bool) (l : list A) :
  existsb f l = true ↔ ∃ x, x ∈ l ∧ f x = true.
Proof.
  rewrite existsb_exists. split; intros (x & Hx & Hf); exists x.
  - by rewrite list_elem_of_In.
  - by rewrite <- list_elem_of_In.
Qed.

Lemma regexTestCI_spec (alts : list string) (s : string) :
  regexTestCI alts s = true ↔
  ∃ p, p ∈ alts ∧ Spec.containsCI p s.
Proof.
  induction s as [|c s IH]; simpl; rewrite orb_true_iff, existsb_elem_of.
  - split.
    + intros [(p & Hp & Hm)|]; [|done].
      apply matchesAtCI_spec in Hm as (found & after & Hs & Hup).
      exists p. split; [done|]. by exists EmptyString, found, after.
    + intros (p & Hp & before & found & after & Hs & Hup). left.
      exists p. split; [done|]. apply matchesAtCI_spec.
      destruct before; simpl in Hs; [|discriminate]. by exists found, after.
  - rewrite IH. split.
    + intros [(p & Hp & Hm)|(p & Hp & before & found & after & Hs & Hup)].
      * apply matchesAtCI_spec in Hm as (found & after & Hs & Hup).
        exists p. split; [done|]. by exists EmptyString, found, after.
      * exists p. split; [done|].
        exists (String c before), found, after. simpl. by rewrite Hs.
    + intros (p & Hp & before & found & after & Hs & Hup).
      destruct before as [|c' before]; simpl in Hs.
      * left. exists p. split; [done|]. apply matchesAtCI_spec.
        by exists found, after.
      * right. injection Hs as -> ->. exists p. split; [done|].
        by exists before, found, after.
Qed.

(** [isStableVersion] decides the stability of the specification. *)
Lemma isStableVersion_spec (v : string) :
  Cli.isStableVersion v = true ↔ Spec.stable v.
Proof.
  unfold Cli.isStableVersion, Spec.stable.
  rewrite negb_true_iff, <- not_true_iff_false, regexTestCI_spec.
  unfold Cli.markers. split.
  - intros Hnone marker Hm Hc. apply Hnone. by exists marker.
  - intros Hst (p & Hp & Hc). by apply (Hst p).
Qed.

Lemma isStableVersion_spec_false (v : string) :
  Cli.isStableVersion v = false ↔ ¬ Spec.stable v.
Proof.
  rewrite <- isStableVersion_spec. by destruct (Cli.isStableVersion v).
Qed.

Lemma parseDigits_snoc (cur : string) (c : ascii) (acc : Z) :
  Spec.allDigits cur = true → isDigit c = true →
  parseDigits acc (cur +:+ String c EmptyString)
  = (10 * parseDigits acc cur + (Z.of_nat (nat_of_ascii c) - 48))%Z.
Proof.
  revert acc. induction cur as [|d cur IH]; intros acc Hcur Hc; simpl in *.
  - by rewrite Hc.
  - apply andb_true_iff in Hcur as [Hd Hcur]. rewrite Hd. by apply IH.
Qed.

Lemma parseDigits_nonneg (s : string) (acc : Z) :
  (0 ≤ acc)%Z → (0 ≤ Js.parseDigits acc s)%Z.
Proof.
  revert acc. induction s as [|c s IH]; intros acc Hacc; simpl; [done|].
  destruct (Js.isDigit c) eqn:Hc; [|done]. apply IH.
  unfold Js.isDigit in Hc. apply andb_true_iff in Hc as [Hlo _].
  apply Nat.leb_le in Hlo. lia.
Qed.

Lemma allDigits_snoc (cur : string) (c : ascii) :
  Spec.allDigits cur = true → isDigit c = true →
  Spec.allDigits (cur +:+ String c EmptyString) = true.
Proof.
  induction cur as [|d cur IH]; simpl; intros Hcur Hc.
  - by rewrite Hc.
  - apply andb_true_iff in Hcur as [Hd Hcur]. rewrite Hd. by apply IH.
Qed.

Lemma tokens_of_splitGo (s cur : string) (inSep : bool) :
  Spec.allDigits cur = true → (inSep = true → cur = "") →
  map parseInt10 (filter (λ x, truthy (Some x) = true) (splitGo cur inSep s))
  = Spec.digitRuns (Spec.pieceValue cur) s.
Proof.
  revert cur inSep. induction s as [|c s IH]; intros cur inSep Hcur Hsep; simpl.
  - unfold Spec.pieceValue, filter; simpl. unfold truthy.
    by destruct (bool_decide (cur = "")).
  - destruct (isDigit c) eqn:Hc.
    + rewrite IH; [|by apply allDigits_snoc|done].
      f_equal. unfold Spec.pieceValue at 1.
      rewrite bool_decide_eq_false_2; [|by destruct cur].
      unfold parseInt10. rewrite parseDigits_snoc by done.
      unfold Spec.pieceValue. case_bool_decide as Hempty; [by subst|done].
    + destruct inSep.
      * rewrite (Hsep eq_refl). by rewrite IH.
      * unfold Spec.pieceValue at 1. case_bool_decide as Hempty.
        -- subst cur. rewrite filter_cons_False by (simpl; discriminate).
           by rewrite IH.
        -- rewrite filter_cons_True by (by apply truthy_nonempty).
           simpl. by rewrite IH.
Qed.

(** The tokens the code computes are the digit runs of the specification. *)
Lemma versionTokens_spec (v : string) : Cli.versionTokens v = Spec.tokens v.
Proof.
  unfold Cli.versionTokens, splitNonDigits, Spec.tokens.
  by rewrite tokens_of_splitGo.
Qed.

End Tokens.

Section Comparison.

Import Cli.

Lemma nth_padTo (n i : nat) (ts : list Z) :
  nth i (Spec.padTo n ts) 0%Z = nth i ts 0%Z.
Proof.
  unfold Spec.padTo. revert i n.
  induction ts as [|t ts IH]; intros i n; simpl.
  - transitivity 0%Z; [|by destruct i].
    generalize (n - 0)%nat. intros m. revert i.
    induction m as [|m IHm]; intros [|i]; simpl; auto.
  - destruct i as [|i]; [done|].
    replace (n - S (length ts))%nat with (n - 1 - length ts)%nat by lia.
    apply IH.
Qed.

Lemma length_padTo (n : nat) (ts : list Z) :
  (length ts ≤ n)%nat → length (Spec.padTo n ts) = n.
Proof.
  intros Hle. unfold Spec.padTo. rewrite length_app, length_replicate. lia.
Qed.

Lemma tokenLoop_ext (ta tb ta' tb' : list Z) (n i : nat) :
  (∀ j, nth j ta 0%Z = nth j ta' 0%Z) →
  (∀ j, nth j tb 0%Z = nth j tb' 0%Z) →
  tokenLoop ta tb n i = tokenLoop ta' tb' n i.
Proof.
  intros Ha Hb. revert i. induction n as [|n IH]; intros i; simpl; [done|].
  by rewrite Ha, Hb, IH.
Qed.

Lemma tokenLoop_shift (x y : Z) (xs ys : list Z) (n i : nat) :
  tokenLoop (x :: xs) (y :: ys) n (S i) = tokenLoop xs ys n i.
Proof.
  revert i. induction n as [|n IH]; intros i; simpl; [done|]. by rewrite IH.
Qed.

(** The loop over two sequences of one length is their lexicographic
    comparison, the greater sequence giving a negative result; when the loop
    falls through, [tie] decides. *)
Lemma tokenLoop_lexCompare (xs ys : list Z) (n : nat) (tie : Z) :
  length xs = n → length ys = n →
  (match tokenLoop xs ys n 0 with
   | Some d => d
   | None => tie
   end ?= 0)%Z
  = match Spec.lexCompare xs ys with
    | Gt => Lt
    | Lt => Gt
    | Eq => (tie ?= 0)%Z
    end.
Proof.
  intros <-. revert ys. induction xs as [|x xs IH]; intros [|y ys] Hlen;
    simpl in Hlen; try discriminate; [done|].
  cbn [length tokenLoop nth Spec.lexCompare].
  case_bool_decide as Hxy.
  - destruct (Z.compare_spec x y) as [Heq|Hlt|Hgt]; [done| |].
    + apply Z.compare_gt_iff. lia.
    + apply Z.compare_lt_iff. lia.
  - assert (x = y) as -> by (by destruct (decide (x = y))).
    rewrite Z.compare_refl, tokenLoop_shift. apply IH. lia.
Qed.

Lemma insertBy_Permutation {A : Type} (cmp : A → A → Z) (x : A) (l : list A) :
  Js.insertBy cmp x l ≡ₚ x :: l.
Proof.
  induction l as [|y l IH]; simpl; [done|].
  destruct (cmp x y <=? 0)%Z; [done|]. rewrite IH. apply Permutation_swap.
Qed.

(** The sort rearranges its input. *)
Lemma sort_Permutation {A : Type} (cmp : A → A → Z) (l : list A) :
  Js.sort cmp l ≡ₚ l.
Proof.
  induction l as [|x l IH]; simpl; [done|].
  by rewrite insertBy_Permutation, IH.
Qed.

(** For a comparator that never puts two elements each after the other,
    the sort leaves every element before its successor. *)
Lemma insertBy_Sorted {A : Type} (cmp : A → A → Z) (x : A) (l : list A) :
  (∀ a b, (0 < cmp a b)%Z → (cmp b a ≤ 0)%Z) →
  Sorted (λ a b, (cmp a b ≤ 0)%Z) l →
  Sorted (λ a b, (cmp a b ≤ 0)%Z) (Js.insertBy cmp x l).
Proof.
  intros Htotal. induction l as [|y l IH]; intros Hl; simpl.
  - by repeat constructor.
  - destruct (cmp x y <=? 0)%Z eqn:Hxy.
    + constructor; [done|]. constructor. by apply Z.leb_le.
    + apply Z.leb_gt in Hxy. apply Sorted_inv in Hl as [Hl Hhd].
      constructor; [by apply IH|].
      destruct l as [|z l]; simpl.
      * constructor. by apply Htotal.
      * destruct (cmp x z <=? 0)%Z; constructor.
        -- by apply Htotal.
        -- by apply HdRel_inv in Hhd.
Qed.

Lemma sort_Sorted {A : Type} (cmp : A → A → Z) (l : list A) :
  (∀ a b, (0 < cmp a b)%Z → (cmp b a ≤ 0)%Z) →
  Sorted (λ a b, (cmp a b ≤ 0)%Z) (Js.sort cmp l).
Proof.
  intros Htotal. induction l as [|x l IH]; simpl; [constructor|].
  by apply insertBy_Sorted.
Qed.

Section Partition.

Variable localeCompare : string → string → Z.

Local Abbreviation isStable := (λ v : string, isStableVersion v = true).
Local Abbreviation isPrerelease := (λ v : string, isStableVersion v = false).

Lemma compare_stable_prerelease (a b : string) :
  isStable a → isPrerelease b →
  compareVersionsDesc localeCompare a b = (-1)%Z ∧
  compareVersionsDesc localeCompare b a = 1%Z.
Proof.
  unfold compareVersionsDesc. by intros -> ->.
Qed.

Lemma insertBy_prerelease (x : string) (l : list string) :
  isPrerelease x → Forall isPrerelease l →
  Forall isPrerelease (Js.insertBy (compareVersionsDesc localeCompare) x l).
Proof.
  intros Hx Hl. rewrite insertBy_Permutation. by constructor.
Qed.

Lemma insertBy_partition (x : string) (st pre : list string) :
  Forall isStable st → Forall isPrerelease pre →
  ∃ st' pre',
    Js.insertBy (compareVersionsDesc localeCompare) x (st ++ pre) = st' ++ pre' ∧
    Forall isStable st' ∧ Forall isPrerelease pre'.
Proof.
  intros Hst Hpre. induction Hst as [|y st Hy Hst IH]; simpl.
  - destruct (isStableVersion x) eqn:Hx.
    + destruct Hpre as [|z pre Hz Hpre]; simpl.
      * exists [x], []. by repeat constructor.
      * destruct (compare_stable_prerelease x z Hx Hz) as [-> _]; simpl.
        exists [x], (z :: pre). by repeat constructor.
    + exists [], (Js.insertBy (compareVersionsDesc localeCompare) x pre).
      split; [done|]. split; [constructor|]. by apply insertBy_prerelease.
  - destruct (compareVersionsDesc localeCompare x y <=? 0)%Z eqn:Hle.
    + destruct (isStableVersion x) eqn:Hx.
      * exists (x :: y :: st), pre. by repeat constructor.
      * destruct (compare_stable_prerelease y x Hy Hx) as [_ Hxy].
        rewrite Hxy in Hle. discriminate.
    + destruct IH as (st' & pre' & -> & Hst' & Hpre').
      exists (y :: st'), pre'. by repeat constructor.
Qed.

(** The ranking is the stable labels followed by the prerelease labels. *)
Lemma rankDescending_partition (versions : list string) :
  ∃ st pre,
    rankDescending localeCompare versions = st ++ pre ∧
    Forall isStable st ∧ Forall isPrerelease pre.
Proof.
  unfold rankDescending. induction versions as [|x versions IH]; simpl.
  - exists [], []. by repeat constructor.
  - destruct IH as (st & pre & -> & Hst & Hpre). by apply insertBy_partition.
Qed.

Lemma rankDescending_stable_first (versions : list string) (a b : string) :
  isStable a → isPrerelease b → a ∈ versions → b ∈ versions →
  ∃ l1 l2 l3, rankDescending localeCompare versions = l1 ++ a :: l2 ++ b :: l3.
Proof.
  intros Ha Hb Hina Hinb.
  destruct (rankDescending_partition versions) as (st & pre & Hrank & Hst & Hpre).
  assert (Hperm : st ++ pre ≡ₚ versions).
  { rewrite <- Hrank. apply sort_Permutation. }
  rewrite <- Hperm in Hina, Hinb.
  apply elem_of_app in Hina as [Hina|Hina], Hinb as [Hinb|Hinb].
  - rewrite Forall_forall in Hst. specialize (Hst b Hinb).
    simpl in *. congruence.
  - apply list_elem_of_split in Hina as (l1 & l2 & ->).
    apply list_elem_of_split in Hinb as (l2' & l3 & ->).
    exists l1, (l2 ++ l2'), l3. rewrite Hrank. by rewrite <- !app_assoc.
  - rewrite Forall_forall in Hpre. specialize (Hpre a Hina).
    simpl in *. congruence.
  - rewrite Forall_forall in Hpre. specialize (Hpre a Hina).
    simpl in *. congruence.
Qed.

End Partition.

(** C3. A stable label (none of the markers occurs in it, letter case
    ignored) is placed before a prerelease label: the comparator is negative
    for the pair and positive for the swapped pair, and in the ranking of any
    list that holds both, the stable label comes first. *)
Theorem stable_before_prerelease (localeCompare : string → string → Z)
    (a b : string) :
  Spec.stable a → ¬ Spec.stable b →
  compareVersionsDesc localeCompare a b = (-1)%Z ∧
  compareVersionsDesc localeCompare b a = 1%Z ∧
  ∀ versions, a ∈ versions → b ∈ versions →
    ∃ l1 l2 l3, rankDescending localeCompare versions = l1 ++ a :: l2 ++ b :: l3.
Proof.
  intros Ha Hb.
  apply isStableVersion_spec in Ha. apply isStableVersion_spec_false in Hb.
  destruct (compare_stable_prerelease localeCompare a b Ha Hb) as [Hab Hba].
  split; [done|]. split; [done|].
  intros versions. by apply rankDescending_stable_first.
Qed.

Lemma stable_before_prerelease_witness :
  compareVersionsDesc Sample.unitCompare "7.0" "7.1-preview" = (-1)%Z ∧
  compareVersionsDesc Sample.unitCompare "7.1-preview" "7.0" = 1%Z.
Proof.
  destruct (stable_before_prerelease Sample.unitCompare "7.0" "7.1-preview")
    as (Hab & Hba & _).
  - apply isStableVersion_spec. vm_compute. reflexivity.
  - apply isStableVersion_spec_false. vm_compute. reflexivity.
  - by split.
Defined.

Lemma tokenLoop_same (ts : list Z) (n i : nat) : tokenLoop ts ts n i = None.
Proof.
  revert i. induction n as [|n IH]; intros i; simpl; [done|].
  by rewrite bool_decide_eq_false_2 by (intros H; by apply H).
Qed.

(** A label against its duplicate is left to the string comparison. *)
Lemma compareVersionsDesc_duplicate (localeCompare : string → string → Z)
    (a : string) :
  compareVersionsDesc localeCompare a a = localeCompare a a.
Proof.
  unfold compareVersionsDesc.
  rewrite bool_decide_eq_false_2 by (intros H; by apply H).
  by rewrite tokenLoop_same.
Qed.

(** On exact tokens, the comparator orders two labels of one partition by
    the sequences of integers read from the runs of digits, compared
    lexicographically with missing trailing tokens as zero, the higher
    sequence first; on equal sequences it is the string comparison of the
    two labels, reversed. *)
Lemma compareVersionsDesc_exact_order
    (localeCompare : string → string → Z) (a b : string) :
  isStableVersion a = isStableVersion b →
  (compareVersionsDesc localeCompare a b ?= 0)%Z
  = Spec.order localeCompare a b.
Proof.
  intros Hsame. unfold compareVersionsDesc, Spec.order.
  rewrite Hsame, bool_decide_eq_false_2 by (intros H; by apply H).
  rewrite !versionTokens_spec.
  set (ta := Spec.tokens a). set (tb := Spec.tokens b).
  set (n := Nat.max (length ta) (length tb)).
  rewrite (tokenLoop_ext ta tb (Spec.padTo n ta) (Spec.padTo n tb))
    by (intros j; by rewrite nth_padTo).
  apply tokenLoop_lexCompare; apply length_padTo; lia.
Qed.

(** An integer strictly between -2^53 and 2^53 is a double. *)
Lemma ofZ_exact (z : Z) :
  (- 2 ^ 53 < z < 2 ^ 53)%Z → Ieee.ofZ z = Ieee.Num z.
Proof.
  intros Hz. unfold Ieee.ofZ, Ieee.roundNat.
  destruct (z <? 0)%Z eqn:Hneg.
  - apply Z.ltb_lt in Hneg.
    rewrite (proj2 (Z.ltb_lt (- z) (2 ^ 53))) by lia.
    simpl. f_equal. lia.
  - apply Z.ltb_ge in Hneg. by rewrite (proj2 (Z.ltb_lt z (2 ^ 53))) by lia.
Qed.

(** A token below 2^53: the runtime holds it exactly. *)
Local Abbreviation small := (λ t : Z, (0 ≤ t < 2 ^ 53)%Z).

Lemma versionTokens_nonneg (v : string) :
  Forall (λ t, (0 ≤ t)%Z) (versionTokens v).
Proof.
  unfold versionTokens.
  induction (filter _ (Js.splitNonDigits v)) as [|x xs IH]; simpl;
    constructor; [by apply parseDigits_nonneg | done].
Qed.

Lemma versionTokens_small (v : string) :
  Forall (λ t, (t < 2 ^ 53)%Z) (Spec.tokens v) → Forall small (versionTokens v).
Proof.
  rewrite <- versionTokens_spec. intros Hlt.
  pose proof (versionTokens_nonneg v) as Hge.
  induction Hlt as [|t ts Ht _ IH]; [constructor|].
  inversion Hge; subst. constructor; [lia | by apply IH].
Qed.

Lemma Ieee_versionTokens (v : string) :
  Forall small (versionTokens v) →
  Ieee.versionTokens v = map Ieee.Num (versionTokens v).
Proof.
  unfold Ieee.versionTokens, versionTokens.
  induction (filter _ (Js.splitNonDigits v)) as [|x xs IH]; simpl; [done|].
  intros Hs. inversion Hs as [|? ? Hx Hxs]; subst.
  rewrite IH by done. f_equal.
  unfold Ieee.parseInt10. apply ofZ_exact.
  unfold Js.parseInt10 in *. cbv beta in Hx. lia.
Qed.

Lemma nth_small (ts : list Z) (i : nat) : Forall small ts → small (nth i ts 0%Z).
Proof.
  intros Hs. revert i.
  induction Hs as [|t ts Ht _ IH]; intros [|i]; simpl; by try lia.
Qed.

Lemma Ieee_tokenLoop (ta tb : list Z) (n i : nat) :
  Forall small ta → Forall small tb →
  Ieee.tokenLoop (map Ieee.Num ta) (map Ieee.Num tb) n i
  = Ieee.Num <$> tokenLoop ta tb n i.
Proof.
  intros Ha Hb. revert i. induction n as [|n IH]; intros i; [done|].
  cbn [Ieee.tokenLoop tokenLoop].
  rewrite !(map_nth Ieee.Num). cbn [Ieee.strictNotEqual].
  pose proof (nth_small ta i Ha) as Hva. pose proof (nth_small tb i Hb) as Hvb.
  cbv beta in Hva, Hvb.
  case_bool_decide; [|apply IH].
  cbn [Ieee.sub fmap option_fmap option_map]. f_equal. apply ofZ_exact. lia.
Qed.

(** When every token of the two labels is below 2^53, the comparator of the
    runtime returns the integer of the comparator on exact tokens. *)
Lemma Ieee_compareVersionsDesc (localeCompare : string → string → Z)
    (a b : string) :
  Forall (λ t, (t < 2 ^ 53)%Z) (Spec.tokens a) →
  Forall (λ t, (t < 2 ^ 53)%Z) (Spec.tokens b) →
  Ieee.compareVersionsDesc localeCompare a b
  = Ieee.Num (compareVersionsDesc localeCompare a b).
Proof.
  intros Ha Hb. apply versionTokens_small in Ha, Hb.
  unfold Ieee.compareVersionsDesc, compareVersionsDesc.
  case_bool_decide; [by destruct (isStableVersion a)|].
  rewrite !Ieee_versionTokens, !length_map, Ieee_tokenLoop by done.
  by destruct (tokenLoop _ _ _ _).
Qed.

(** C4, as amended. For two labels of one partition whose runs of digits all
    read below 2^53, the comparator the runtime evaluates orders by the
    sequences of integers read from the runs of digits, compared
    lexicographically with missing trailing tokens as zero, the higher
    sequence first; on equal sequences the sign of the host's
    [b.localeCompare(a)] decides, a comparison that depends on the host's
    collation and is taken as it is. *)
Theorem compareVersionsDesc_same_partition
    (localeCompare : string → string → Z) (a b : string) :
  isStableVersion a = isStableVersion b →
  Forall (λ t, (t < 2 ^ 53)%Z) (Spec.tokens a) →
  Forall (λ t, (t < 2 ^ 53)%Z) (Spec.tokens b) →
  Ieee.sign (Ieee.compareVersionsDesc localeCompare a b)
  = Spec.order localeCompare a b.
Proof.
  intros Hsame Ha Hb. rewrite Ieee_compareVersionsDesc by done.
  by apply compareVersionsDesc_exact_order.
Qed.

Lemma compareVersionsDesc_same_partition_witness :
  Ieee.sign (Ieee.compareVersionsDesc Sample.unitCompare "1.10" "1.9") = Lt ∧
  Ieee.sign (Ieee.compareVersionsDesc Sample.unitCompare "7.1-preview" "7.1-beta")
  = (Sample.unitCompare "7.1-beta" "7.1-preview" ?= 0)%Z.
Proof.
  split.
  - rewrite (compareVersionsDesc_same_partition Sample.unitCompare "1.10" "1.9");
      [reflexivity | reflexivity | |]; repeat constructor.
  - rewrite (compareVersionsDesc_same_partition Sample.unitCompare
               "7.1-preview" "7.1-beta");
      [reflexivity | reflexivity | |]; repeat constructor.
Defined.

(** C4, as stated, fails whatever the host's string comparison is, for
    labels with a run of digits that is not a double: the runtime reads
    [9007199254740993] as 2^53, so the first tokens of the two labels are
    equal to it, the second tokens decide, and [9007199254740992.2] is placed
    before [9007199254740993.1], whose sequence is the higher one. *)
Lemma token_order_counterexample :
  ¬ ∃ localeCompare,
      Spec.tokenOrderRule localeCompare
        "9007199254740993.1" "9007199254740992.2".
Proof.
  intros (localeCompare & H). specialize (H eq_refl).
  vm_compute in H. discriminate.
Qed.

(** The third ranking of section 8: tokens are compared as numbers. *)
Example rankDescending_numeric (localeCompare : string → string → Z) :
  rankDescending localeCompare ["1.2"; "1.10"; "1.9"] = ["1.10"; "1.9"; "1.2"].
Proof. reflexivity. Qed.

Example rankDescending_empty (localeCompare : string → string → Z) :
  rankDescending localeCompare [] = [].
Proof. reflexivity. Qed.

(** C5, as amended. The first ranking of the examples keeps the prerelease
    label, last; the second is as stated. *)
Theorem rankDescending_examples (localeCompare : string → string → Z) :
  rankDescending localeCompare ["7.1"; "7.2-preview"; "7.0"]
  = ["7.1"; "7.0"; "7.2-preview"] ∧
  rankDescending localeCompare ["7.0"; "7.1-preview"; "7.2"]
  = ["7.2"; "7.0"; "7.1-preview"].
Proof. split; reflexivity. Qed.

(** C5, as stated, fails whatever the host's string comparison is: the
    ranking of [7.1], [7.2-preview], [7.0] is not [7.2], [7.1], [7.0]. *)
Lemma rankDescending_examples_counterexample :
  ¬ ∃ localeCompare, Spec.rankExamples localeCompare.
Proof.
  intros (localeCompare & H & _). vm_compute in H. discriminate.
Qed.

End Comparison.

(** ** The selector and the ranker as functions of their inputs *)

Section Purity.

Variable localeCompare : string → string → Z.

Lemma fresh_lookup (h : Js.heap) : h !! fresh (dom h) = None.
Proof. apply not_elem_of_dom, is_fresh. Qed.

(** The result of [pickLatest] depends on the elements of its argument
    alone. *)
Lemma pickLatest_result (versions : nat) (h : Js.heap) :
  (OnHeap.pickLatest localeCompare versions h).1
  = Cli.pickLatest localeCompare (Js.elements h versions).
Proof.
  unfold OnHeap.pickLatest, Js.slice, Js.sortInPlace, Cli.pickLatest,
    Cli.rankDescending; simpl.
  unfold Js.elements at 1. by rewrite lookup_alter_eq, lookup_insert_eq.
Qed.

(** [pickLatest] leaves every array that exists before the call as it is:
    it sorts a copy. *)
Lemma pickLatest_frame (versions xs : nat) (h : Js.heap) :
  is_Some (h !! xs) →
  (OnHeap.pickLatest localeCompare versions h).2 !! xs = h !! xs.
Proof.
  intros [elems Hxs].
  unfold OnHeap.pickLatest, Js.slice, Js.sortInPlace; simpl.
  assert (fresh (dom h) ≠ xs) as Hne.
  { intros <-. rewrite fresh_lookup in Hxs. discriminate. }
  by rewrite lookup_alter_ne, lookup_insert_ne.
Qed.

Lemma pickLatest_elements (versions : nat) (h : Js.heap) :
  Js.elements (OnHeap.pickLatest localeCompare versions h).2 versions
  = Js.elements h versions.
Proof.
  unfold Js.elements.
  destruct (h !! versions) as [elems|] eqn:Hv.
  - rewrite pickLatest_frame by (by exists elems). by rewrite Hv.
  - unfold OnHeap.pickLatest, Js.slice, Js.sortInPlace; simpl.
    destruct (decide (fresh (dom h) = versions)) as [<-|Hne].
    + rewrite lookup_alter_eq, lookup_insert_eq. unfold Js.elements.
      by rewrite fresh_lookup.
    + by rewrite lookup_alter_ne, lookup_insert_ne, Hv.
Qed.

(** C6. The selector and the ranker are functions of their inputs: on two
    stores that hold the same elements in the argument arrays they give the
    same result; the selector leaves the store as it is and the ranker
    leaves every existing array as it is, so a second call repeats the
    result of the first. *)
Theorem selector_and_ranker_deterministic (api : string)
    (fileOverride : option string) (jsons versions : nat) (h h' : Js.heap) :
  Js.elements h jsons = Js.elements h' jsons →
  Js.elements h versions = Js.elements h' versions →
  (OnHeap.pickSpecFile api jsons fileOverride h).1
  = (OnHeap.pickSpecFile api jsons fileOverride h').1 ∧
  (OnHeap.pickLatest localeCompare versions h).1
  = (OnHeap.pickLatest localeCompare versions h').1 ∧
  (OnHeap.pickSpecFile api jsons fileOverride h).2 = h ∧
  (∀ xs, is_Some (h !! xs) →
         (OnHeap.pickLatest localeCompare versions h).2 !! xs = h !! xs) ∧
  (OnHeap.pickSpecFile api jsons fileOverride
     (OnHeap.pickSpecFile api jsons fileOverride h).2).1
  = (OnHeap.pickSpecFile api jsons fileOverride h).1 ∧
  (OnHeap.pickLatest localeCompare versions
     (OnHeap.pickLatest localeCompare versions h).2).1
  = (OnHeap.pickLatest localeCompare versions h).1.
Proof.
  intros Hjsons Hversions.
  split; [unfold OnHeap.pickSpecFile; simpl; by rewrite Hjsons|].
  split; [by rewrite !pickLatest_result, Hversions|].
  split; [done|].
  split; [intros xs; apply pickLatest_frame|].
  split; [done|].
  by rewrite !pickLatest_result, pickLatest_elements.
Qed.

End Purity.

Lemma selector_and_ranker_deterministic_witness :
  (OnHeap.pickSpecFile "a" 0 None Sample.store).1 = Return "a.json" ∧
  (OnHeap.pickLatest Sample.unitCompare 1
     (OnHeap.pickLatest Sample.unitCompare 1 Sample.store).2).1
  = Some "7.2".
Proof.
  destruct (selector_and_ranker_deterministic Sample.unitCompare "a" None 0 1
              Sample.store
              (OnHeap.pickLatest Sample.unitCompare 1 Sample.store).2)
    as (Hpick & Hlatest & _ & _ & _ & Hagain).
  - vm_compute. reflexivity.
  - vm_compute. reflexivity.
  - split.
    + rewrite Hpick. vm_compute. reflexivity.
    + rewrite Hagain. vm_compute. reflexivity.
Defined.

(** ** The bulk command *)

Section BulkLoop.

Import Bulk.

Variable env : Env.
Variable opts : Options.

Lemma versionRequests_app (t1 t2 : list Event) :
  versionRequests (t1 ++ t2) = versionRequests t1 ++ versionRequests t2.
Proof.
  induction t1 as [|e t1 IH]; simpl; [done|]. destruct e; simpl; by rewrite ?IH.
Qed.

Lemma errorLines_app (t1 t2 : list Event) :
  errorLines (t1 ++ t2) = errorLines t1 ++ errorLines t2.
Proof.
  induction t1 as [|e t1 IH]; simpl; [done|]. destruct e; simpl; by rewrite ?IH.
Qed.

(** An error thrown by the [try] block is caught and printed. *)
Lemma iteration_caught (api : string) (s s1 : State env) (msg : string) :
  tryBlock env opts api s = (Thrown msg, s1) →
  iteration env opts api s
  = (Normal tt,
     {| world := world env s1;
        trace := trace env s1 ++ [Stderr ("Error en " +:+ api +:+ ": " +:+ msg)] |}).
Proof. intros H. unfold iteration, tryCatch. by rewrite H. Qed.

(** A failure of the selector ends the iteration by [continue], with
    nothing printed. *)
Lemma iteration_selection_failure (api : string) (s s1 s2 : State env)
    (versions jsons : list string) (e : Github.PickError) :
  call env (CallListVersions api (ref opts))
    (listVersions env api (ref opts)) s = (Normal versions, s1) →
  versions ≠ [] →
  call env
    (CallListJsonFiles api
       (Js.str (Cli.pickLatest (localeCompare env) versions)) (ref opts))
    (listJsonFiles env api
       (Js.str (Cli.pickLatest (localeCompare env) versions)) (ref opts)) s1
  = (Normal jsons, s2) →
  Github.pickSpecFile api jsons None = Throw e →
  iteration env opts api s = (Continue, s2).
Proof.
  intros Hv Hne Hj He.
  unfold iteration, tryCatch, tryBlock, bind. rewrite Hv.
  rewrite bool_decide_eq_false_2 by (by destruct versions).
  rewrite Hj. unfold pickSpecFileM. by rewrite He.
Qed.

(** Every iteration ends normally or by [continue], and asks the upstream
    for the versions of its API once. *)
Lemma iteration_outcome (api : string) (s : State env) :
  ∃ s',
    (iteration env opts api s = (Normal tt, s') ∨
     iteration env opts api s = (Continue, s')) ∧
    versionRequests (trace env s') = versionRequests (trace env s) ++ [api].
Proof.
  unfold iteration, tryCatch, tryBlock, bind, call, pickSpecFileM, continue,
    throw, ret, consoleLog, consoleError, emit.
  repeat (case_match; unfold tryCatch in *; simplify_eq/=);
    eexists; (split; [by (left + right)|]);
    simpl; rewrite ?versionRequests_app; simpl; by rewrite ?app_nil_r.
Qed.

Lemma loop_completes (apis : list string) (s : State env) :
  ∃ s',
    loop env opts apis s = (Normal tt, s') ∧
    versionRequests (trace env s') = versionRequests (trace env s) ++ apis.
Proof.
  unfold loop. revert s. induction apis as [|api apis IH]; intros s; simpl.
  - exists s. by rewrite app_nil_r.
  - destruct (iteration_outcome api s) as (s1 & [-> | ->] & Hreq);
      destruct (IH s1) as (s' & -> & Hreq'); exists s';
      (split; [done|]); by rewrite Hreq', Hreq, <- app_assoc.
Qed.

(** When the list of APIs is obtained, the action ends normally after the
    loop, its last line being the closing message. *)
Lemma generateLatest_completes (apis : list string) (w' : W env)
    (s : State env) :
  listApis env (ref opts) (world env s) = (Return apis, w') →
  ∃ s',
    generateLatest env opts s = (Normal tt, s') ∧
    last (trace env s') = Some (Stdout "Finalizado.") ∧
    versionRequests (trace env s') = versionRequests (trace env s) ++ apis.
Proof.
  intros Hapis. unfold generateLatest, tryCatch, bind, call. rewrite Hapis.
  destruct (loop_completes apis
              {| world := w'; trace := trace env s ++ [CallListApis (ref opts)] |})
    as (s1 & -> & Hreq).
  unfold consoleLog, emit. eexists. split; [done|]. simpl.
  split; [by rewrite last_snoc|]. simpl in Hreq.
  rewrite versionRequests_app, Hreq, versionRequests_app. simpl.
  by rewrite !app_nil_r.
Qed.

(** When the list of APIs cannot be obtained, the action prints the error
    and exits with status 1. *)
Lemma generateLatest_dies (msg : string) (w' : W env) (s : State env) :
  listApis env (ref opts) (world env s) = (Throw msg, w') →
  generateLatest env opts s
  = (Exit 1,
     {| world := w';
        trace := (trace env s ++ [CallListApis (ref opts)]) ++
                 [Stderr ("❌ " +:+ msg)] |}).
Proof.
  intros Hapis. unfold generateLatest, tryCatch, bind, call. by rewrite Hapis.
Qed.

End BulkLoop.

(** C7, as amended. In the bulk command an error thrown while one API is
    processed is caught and printed, except that a failure of the selector is
    caught and skips the API without a message; either way the loop goes on:
    whatever the upstream, the file system and the generator answer, the loop
    over the discovered APIs ends normally after asking for the versions of
    every API of the list, in order. *)
Theorem generate_latest_loop_continues (env : Bulk.Env) (opts : Bulk.Options) :
  (∀ api s s1 msg,
     Bulk.tryBlock env opts api s = (Bulk.Thrown msg, s1) →
     Bulk.iteration env opts api s
     = (Bulk.Normal tt,
        Bulk.Build_State env (Bulk.world env s1)
          (Bulk.trace env s1 ++
           [Bulk.Stderr ("Error en " +:+ api +:+ ": " +:+ msg)]))) ∧
  (∀ api s s1 s2 versions jsons e,
     Bulk.call env (Bulk.CallListVersions api (Bulk.ref opts))
       (Bulk.listVersions env api (Bulk.ref opts)) s
     = (Bulk.Normal versions, s1) →
     versions ≠ [] →
     Bulk.call env
       (Bulk.CallListJsonFiles api
          (Js.str (Cli.pickLatest (Bulk.localeCompare env) versions))
          (Bulk.ref opts))
       (Bulk.listJsonFiles env api
          (Js.str (Cli.pickLatest (Bulk.localeCompare env) versions))
          (Bulk.ref opts)) s1
     = (Bulk.Normal jsons, s2) →
     Github.pickSpecFile api jsons None = Throw e →
     Bulk.iteration env opts api s = (Bulk.Continue, s2)) ∧
  (∀ apis s,
     ∃ s',
       Bulk.loop env opts apis s = (Bulk.Normal tt, s') ∧
       Bulk.versionRequests (Bulk.trace env s')
       = Bulk.versionRequests (Bulk.trace env s) ++ apis).
Proof.
  split; [|split].
  - intros api s s1 msg. apply iteration_caught.
  - intros api s s1 s2 versions jsons e. apply iteration_selection_failure.
  - apply loop_completes.
Qed.

Lemma generate_latest_loop_continues_witness :
  Bulk.iteration Sample.env Sample.opts "graph" Sample.start
  = (Bulk.Normal tt,
     Bulk.Build_State Sample.env tt
       [Bulk.CallListVersions "graph" "master";
        Bulk.Stderr "Error en graph: HTTP 500"]) ∧
  Bulk.iteration Sample.env Sample.opts "core" Sample.start
  = (Bulk.Continue,
     Bulk.Build_State Sample.env tt
       [Bulk.CallListVersions "core" "master";
        Bulk.CallListJsonFiles "core" "7.1" "master"]).
Proof.
  destruct (generate_latest_loop_continues Sample.env Sample.opts)
    as (Hcaught & Hskipped & _).
  split.
  - erewrite Hcaught; [|vm_compute; reflexivity]. reflexivity.
  - erewrite (Hskipped "core" Sample.start _ _ ["7.0"; "7.1"] [] Github.NoJsons);
      [| vm_compute; reflexivity | discriminate | vm_compute; reflexivity
       | reflexivity ].
    reflexivity.
Defined.

(** C7, as stated, fails for a failure of the selector: the directory of
    [core] holds no JSON document, [pickSpecFile] fails with NotFound, and
    the iteration prints nothing to standard error. *)
Lemma selection_failure_not_logged_counterexample :
  ¬ Spec.selectionFailureLogged Sample.env Sample.opts "core" Sample.start.
Proof.
  intros H.
  eapply (H ["7.0"; "7.1"] [] Github.NoJsons);
    [ vm_compute; reflexivity | discriminate | vm_compute; reflexivity
    | reflexivity | vm_compute; reflexivity ].
Qed.

(** ** The scaffold entry file *)

Section EntryFile.

Import Scaffold.

(** The pushes of the code build the header followed by the body of the
    specification. *)
Lemma exportsLines_spec (hasApisIndex hasModelsIndex hasConfiguration
    hasRuntime usesSrcLayout fallbackSrcIndex : bool) :
  exportsLines hasApisIndex hasModelsIndex hasConfiguration hasRuntime
    usesSrcLayout fallbackSrcIndex
  = Spec.entryHeader ++
    Spec.entryBody hasApisIndex hasModelsIndex hasConfiguration hasRuntime
      usesSrcLayout fallbackSrcIndex.
Proof.
  by destruct hasApisIndex, hasModelsIndex, hasConfiguration, hasRuntime,
    usesSrcLayout, fallbackSrcIndex.
Qed.

(** Each known submodule has exactly one re-export line when it is present
    and none when it is absent. *)
Lemma exportsLines_one_line_each (hasApisIndex hasModelsIndex hasConfiguration
    hasRuntime usesSrcLayout fallbackSrcIndex : bool) :
  let lines :=
    exportsLines hasApisIndex hasModelsIndex hasConfiguration hasRuntime
      usesSrcLayout fallbackSrcIndex in
  let count p := Spec.occurrences (exportFrom (entryFrom usesSrcLayout p)) lines in
  count "apis/index.js" = (if hasApisIndex then 1 else 0)%nat ∧
  count "models/index.js" = (if hasModelsIndex then 1 else 0)%nat ∧
  count "configuration.js" = (if hasConfiguration then 1 else 0)%nat ∧
  count "runtime.js" = (if hasRuntime then 1 else 0)%nat.
Proof.
  by destruct hasApisIndex, hasModelsIndex, hasConfiguration, hasRuntime,
    usesSrcLayout, fallbackSrcIndex; vm_compute.
Qed.

Lemma mkdirs_lookup (parent todo q : list string) (d d' : fs) :
  mkdirs parent todo d = Some d' →
  (length parent + length todo < length q)%nat →
  d' !! q = d !! q.
Proof.
  revert parent d. induction todo as [|seg todo IH]; intros parent d; simpl.
  - by intros [= ->].
  - intros Hmk Hlen.
    assert (length (parent ++ [seg]) + length todo < length q)%nat as Hlen'.
    { rewrite length_app; simpl; lia. }
    destruct (d !! (parent ++ [seg])) as [[|content]|] eqn:Hhere.
    + by apply (IH _ _ Hmk).
    + discriminate.
    + rewrite (IH _ _ Hmk Hlen'). apply lookup_insert_ne.
      intros <-. rewrite length_app in Hlen; simpl in Hlen. lia.
Qed.

Lemma length_removelast_le {A : Type} (l : list A) :
  (length (removelast l) ≤ length l)%nat.
Proof.
  induction l as [|x [|y l] IH]; simpl in *; lia.
Qed.

Lemma writeFile_lookup (p q : list string) (content : string) (d d' : fs) :
  writeFile p content d = Some d' →
  (length p < length q)%nat →
  d' !! q = d !! q.
Proof.
  unfold writeFile, ensureDir. intros Hw Hlen.
  destruct (mkdirs [] (removelast p) d) as [d1|] eqn:Hmk; simpl in Hw;
    [|discriminate].
  assert (d1 !! q = d !! q) as <-.
  { apply (mkdirs_lookup _ _ _ _ _ Hmk). simpl.
    pose proof (length_removelast_le p). lia. }
  assert (d' = <[p := File content]> d1) as ->.
  { by destruct (d1 !! p) as [[|?]|]; simplify_eq. }
  apply lookup_insert_ne. intros <-. lia.
Qed.

Lemma writeFile_written (p : list string) (content : string) (d d' : fs) :
  writeFile p content d = Some d' → d' !! p = Some (File content).
Proof.
  unfold writeFile. intros Hw.
  destruct (ensureDir (removelast p) d) as [d1|]; simpl in Hw; [|discriminate].
  assert (d' = <[p := File content]> d1) as ->.
  { by destruct (d1 !! p) as [[|?]|]; simplify_eq. }
  apply lookup_insert_eq.
Qed.

Lemma fileExists_ext (d d' : fs) (q : list string) :
  d' !! q = d !! q → fileExists d' q = fileExists d q.
Proof. unfold fileExists. by intros ->. Qed.

Lemma mkdirs_preserves (parent todo q : list string) (x : node) (d d' : fs) :
  mkdirs parent todo d = Some d' → d !! q = Some x → d' !! q = Some x.
Proof.
  revert parent d. induction todo as [|seg todo IH]; intros parent d; simpl.
  - by intros [= ->].
  - intros Hmk Hq.
    destruct (d !! (parent ++ [seg])) as [[|content]|] eqn:Hhere.
    + by apply (IH _ _ Hmk).
    + discriminate.
    + apply (IH _ _ Hmk). rewrite lookup_insert_ne; [done|].
      intros <-. rewrite Hhere in Hq. discriminate.
Qed.

(** Directories that are all there already are left as they are. *)
Lemma mkdirs_present (parent todo : list string) (d : fs) :
  (∀ k, (1 ≤ k ≤ length todo)%nat → d !! (parent ++ take k todo) = Some Dir) →
  mkdirs parent todo d = Some d.
Proof.
  revert parent. induction todo as [|seg todo IH]; intros parent Hdirs; simpl;
    [done|].
  assert (d !! (parent ++ [seg]) = Some Dir) as ->.
  { apply (Hdirs 1%nat). simpl. lia. }
  apply IH.
  intros k Hk. rewrite <- app_assoc. apply (Hdirs (S k)). simpl. lia.
Qed.

(** Without a file on the way, the directories are created. *)
Lemma mkdirs_creates (parent todo : list string) (d : fs) :
  (∀ k c, (1 ≤ k ≤ length todo)%nat →
          d !! (parent ++ take k todo) ≠ Some (File c)) →
  ∃ d',
    mkdirs parent todo d = Some d' ∧
    ∀ k, (1 ≤ k ≤ length todo)%nat → d' !! (parent ++ take k todo) = Some Dir.
Proof.
  revert parent d. induction todo as [|seg todo IH]; intros parent d Hfree; simpl.
  - exists d. split; [done|]. intros k Hk. simpl in Hk. lia.
  - set (here := parent ++ [seg]).
    assert (∀ d1, d1 !! here = Some Dir →
              (∀ q, (length here < length q)%nat → d1 !! q = d !! q) →
              ∃ d', mkdirs here todo d1 = Some d' ∧
                ∀ k, (1 ≤ k ≤ S (length todo))%nat →
                     d' !! (parent ++ take k (seg :: todo)) = Some Dir) as Hstep.
    { intros d1 Hhere Hsame.
      destruct (IH here d1) as (d' & Hmk & Hdirs).
      { intros k c Hk. rewrite Hsame.
        - unfold here. rewrite <- app_assoc. apply (Hfree (S k)). simpl. lia.
        - rewrite length_app, length_take. lia. }
      exists d'. split; [done|]. intros [|[|k]] Hk; [lia| |].
      - simpl. by apply (mkdirs_preserves _ _ _ _ _ _ Hmk).
      - specialize (Hdirs (S k)). unfold here in Hdirs.
        rewrite <- app_assoc in Hdirs. apply Hdirs. lia. }
    destruct (d !! here) as [[|content]|] eqn:Hhere.
    + by apply Hstep.
    + exfalso. apply (Hfree 1%nat content); [simpl; lia|done].
    + apply Hstep; [apply lookup_insert_eq|].
      intros q Hq. apply lookup_insert_ne. intros <-. lia.
Qed.

(** With the package directory in place, a file that is not a directory
    can be written into it. *)
Lemma writeFile_into (dir : list string) (name content : string) (d : fs) :
  (∀ k, (1 ≤ k ≤ length dir)%nat → d !! take k dir = Some Dir) →
  d !! (dir ++ [name]) ≠ Some Dir →
  writeFile (dir ++ [name]) content d
  = Some (<[dir ++ [name] := File content]> d).
Proof.
  intros Hdirs Hfile. unfold writeFile, ensureDir.
  rewrite removelast_last, mkdirs_present by done. simpl.
  by destruct (d !! (dir ++ [name])) as [[|?]|].
Qed.

Variable stringify : json → string.

(** [scaffoldPackage] completes when no file lies on the way to the package
    directory and none of the four files it writes is a directory. *)
Lemma scaffoldPackage_completes (opts : ScaffoldOptions) (d : fs) :
  (∀ k c, (1 ≤ k ≤ length (packageDir opts))%nat →
          d !! take k (packageDir opts) ≠ Some (File c)) →
  (∀ name, name ∈ ["package.json"; "tsconfig.json"; "README.md"; "index.ts"] →
           d !! (packageDir opts ++ [name]) ≠ Some Dir) →
  is_Some (scaffoldPackage stringify opts d).
Proof.
  intros Hfree Htargets. unfold scaffoldPackage. set (dir := packageDir opts).
  destruct (mkdirs_creates [] dir d Hfree) as (d0 & H0 & Hdirs). simpl in Hdirs.
  unfold ensureDir at 1. rewrite H0. simpl.
  assert (∀ name, d0 !! (dir ++ [name]) = d !! (dir ++ [name])) as Hsame.
  { intros name. apply (mkdirs_lookup _ _ _ _ _ H0).
    rewrite length_app. simpl. lia. }
  assert (∀ (d1 : fs) name content,
            (∀ k, (1 ≤ k ≤ length dir)%nat → d1 !! take k dir = Some Dir) →
            ∀ k, (1 ≤ k ≤ length dir)%nat →
                 <[dir ++ [name] := File content]> d1 !! take k dir = Some Dir)
    as Hkeep.
  { intros d1 name content Hd1 k Hk. rewrite lookup_insert_ne; [by apply Hd1|].
    intros Heq. apply (f_equal length) in Heq.
    rewrite length_app, length_take in Heq. simpl in Heq. lia. }
  rewrite writeFile_into; [simpl|done|].
  2:{ rewrite Hsame. apply Htargets. set_solver. }
  rewrite writeFile_into; [simpl|by apply Hkeep|].
  2:{ rewrite lookup_insert_ne by (intros [=]%app_inv_head).
      rewrite Hsame. apply Htargets. set_solver. }
  rewrite writeFile_into; [simpl|by do 2 apply Hkeep|].
  2:{ rewrite !lookup_insert_ne by (intros [=]%app_inv_head).
      rewrite Hsame. apply Htargets. set_solver. }
  rewrite writeFile_into; [done|by do 3 apply Hkeep|].
  rewrite !lookup_insert_ne by (intros [=]%app_inv_head).
  rewrite Hsame. apply Htargets. set_solver.
Qed.

(** C8. Whenever [scaffoldPackage] completes, the entry file it leaves at
    [index.ts] is the two header lines followed by exactly one re-export line
    for each of [apis/index], [models/index], [configuration] and [runtime]
    that the generator output holds; when it holds none of them, by the
    re-export of [./src/index.js] if [src/index.ts] exists, and else by the
    comment that no known entrypoint was detected. *)
Theorem scaffoldPackage_entry_file (opts : ScaffoldOptions) (d d' : fs) :
  scaffoldPackage stringify opts d = Some d' →
  let dir := packageDir opts in
  let hasApisIndex := Spec.hasSubmodule d dir ["apis"; "index.ts"] in
  let hasModelsIndex := Spec.hasSubmodule d dir ["models"; "index.ts"] in
  let hasConfiguration := Spec.hasSubmodule d dir ["configuration.ts"] in
  let hasRuntime := Spec.hasSubmodule d dir ["runtime.ts"] in
  let usesSrcLayout := Spec.usesSrcLayout d dir in
  let fallbackSrcIndex := fileExists d (dir ++ ["src"; "index.ts"]) in
  ∃ lines,
    d' !! (dir ++ ["index.ts"])
    = Some (File (Js.join Js.newline lines +:+ Js.newline)) ∧
    lines
    = Spec.entryHeader ++
      Spec.entryBody hasApisIndex hasModelsIndex hasConfiguration hasRuntime
        usesSrcLayout fallbackSrcIndex ∧
    Spec.occurrences (exportFrom (entryFrom usesSrcLayout "apis/index.js")) lines
    = (if hasApisIndex then 1 else 0)%nat ∧
    Spec.occurrences (exportFrom (entryFrom usesSrcLayout "models/index.js")) lines
    = (if hasModelsIndex then 1 else 0)%nat ∧
    Spec.occurrences (exportFrom (entryFrom usesSrcLayout "configuration.js")) lines
    = (if hasConfiguration then 1 else 0)%nat ∧
    Spec.occurrences (exportFrom (entryFrom usesSrcLayout "runtime.js")) lines
    = (if hasRuntime then 1 else 0)%nat.
Proof.
  unfold scaffoldPackage. set (dir := packageDir opts). intros H.
  destruct (ensureDir dir d) as [d0|] eqn:H0; simpl in H; [|discriminate].
  destruct (writeFile (dir ++ ["package.json"]) _ d0) as [d1|] eqn:H1;
    simpl in H; [|discriminate].
  destruct (writeFile (dir ++ ["tsconfig.json"]) _ d1) as [d2|] eqn:H2;
    simpl in H; [|discriminate].
  destruct (writeFile (dir ++ ["README.md"]) _ d2) as [d3|] eqn:H3;
    simpl in H; [|discriminate].
  apply writeFile_written in H.
  assert (∀ rel, rel ≠ [] → fileExists d0 (dir ++ rel) = fileExists d (dir ++ rel))
    as Hread.
  { intros rel Hrel. apply fileExists_ext, (mkdirs_lookup _ _ _ _ _ H0).
    rewrite length_app. destruct rel; [done|]. simpl. lia. }
  assert (fileExists d3 (dir ++ ["src"; "index.ts"])
          = fileExists d (dir ++ ["src"; "index.ts"])) as Hfallback.
  { rewrite <- Hread by done. apply fileExists_ext.
    rewrite (writeFile_lookup _ _ _ _ _ H3), (writeFile_lookup _ _ _ _ _ H2),
      (writeFile_lookup _ _ _ _ _ H1); rewrite ?length_app; simpl; [done|lia..]. }
  rewrite Hfallback, !Hread in H by done.
  eexists. split; [exact H|]. split; [apply exportsLines_spec|].
  apply exportsLines_one_line_each.
Qed.

End EntryFile.

Lemma scaffoldPackage_entry_file_witness :
  ∃ d',
    Scaffold.scaffoldPackage Sample.stringify Sample.scaffoldOpts Sample.generated
    = Some d' ∧
    d' !! ["pkg"; "index.ts"]
    = Some (Scaffold.File
              (Js.join Js.newline
                 ["// Auto-generated entrypoint.";
                  "// Do not edit manually." +:+ Js.newline;
                  Scaffold.exportFrom "./apis/index.js";
                  Scaffold.exportFrom "./runtime.js"]
               +:+ Js.newline)).
Proof.
  assert (is_Some (Scaffold.scaffoldPackage Sample.stringify Sample.scaffoldOpts
                     Sample.generated)) as [d' Hrun].
  { apply (bool_decide_unpack _). vm_compute. exact I. }
  exists d'. split; [done|].
  destruct (scaffoldPackage_entry_file Sample.stringify Sample.scaffoldOpts
              Sample.generated d' Hrun) as (lines & Hfile & -> & _).
  etransitivity; [exact Hfile|]. vm_compute. reflexivity.
Defined.

(** * Further properties of the code *)

(** ** The selector *)

Section SelectorMore.

Import Github.

Lemma firstIncluded_elem_of (jsons preferred : list string) (p : string) :
  firstIncluded jsons preferred = Some p → p ∈ jsons ∧ p ∈ preferred.
Proof.
  induction preferred as [|q preferred IH]; simpl; [done|].
  destruct (Js.includes jsons q) eqn:Hq.
  - intros [= ->]. apply includes_elem_of in Hq. split; [done|]. by left.
  - intros [Hin Hpref]%IH. split; [done|]. by right.
Qed.

Lemma includes_Permutation (xs ys : list string) (x : string) :
  xs ≡ₚ ys → Js.includes xs x = Js.includes ys x.
Proof.
  intros Hperm. unfold Js.includes. apply bool_decide_ext. by rewrite Hperm.
Qed.

Lemma firstIncluded_Permutation (xs ys preferred : list string) :
  xs ≡ₚ ys → firstIncluded xs preferred = firstIncluded ys preferred.
Proof.
  intros Hperm. induction preferred as [|p preferred IH]; simpl; [done|].
  by rewrite (includes_Permutation xs ys p Hperm), IH.
Qed.

Lemma pickSpecFile_Return_elem_of (api : string) (jsons : list string)
    (fileOverride : option string) (chosen : string) :
  pickSpecFile api jsons fileOverride = Return chosen → chosen ∈ jsons.
Proof.
  unfold pickSpecFile.
  destruct (if Js.truthy fileOverride then fileOverride else None) as [f|].
  - destruct (Js.includes jsons f) eqn:Hin; simpl; [|done].
    intros [= <-]. by apply includes_elem_of.
  - destruct jsons as [|j1 [|j2 rest]]; [done| |].
    + intros [= <-]. by left.
    + destruct (firstIncluded _ _) as [p|] eqn:Hp; [|done].
      intros [= <-]. by apply firstIncluded_elem_of in Hp as [Hin _].
Qed.

(** X1. Whatever [pickSpecFile] returns is one of the candidates, with or
    without an override. *)
Theorem pickSpecFile_returns_candidate (api : string) (jsons : list string)
    (fileOverride : option string) (chosen : string) :
  pickSpecFile api jsons fileOverride = Return chosen → chosen ∈ jsons.
Proof.
  unfold pickSpecFile.
  destruct (if Js.truthy fileOverride then fileOverride else None) as [f|].
  - destruct (Js.includes jsons f) eqn:Hin; simpl; [|done].
    intros [= <-]. by apply includes_elem_of.
  - destruct jsons as [|j1 [|j2 rest]]; [done| |].
    + intros [= <-]. by left.
    + destruct (firstIncluded _ _) as [p|] eqn:Hp; [|done].
      intros [= <-]. by apply firstIncluded_elem_of in Hp as [Hin _].
Qed.

Lemma pickSpecFile_returns_candidate_witness :
  "b.json" ∈ ["a.json"; "b.json"].
Proof.
  apply (pickSpecFile_returns_candidate "a" ["a.json"; "b.json"]
           (Some "b.json") "b.json").
  reflexivity.
Defined.

(** X2. The outcome of [pickSpecFile] does not depend on the order of the
    candidates: on a rearranged list it returns the same file, or fails with
    an error of the same kind. *)
Theorem pickSpecFile_order_irrelevant (api : string) (jsons jsons' : list string)
    (fileOverride : option string) :
  jsons ≡ₚ jsons' →
  match pickSpecFile api jsons fileOverride,
        pickSpecFile api jsons' fileOverride with
  | Return chosen, Return chosen' => chosen = chosen'
  | Throw e, Throw e' => kind e = kind e'
  | _, _ => False
  end.
Proof.
  intros Hperm. unfold pickSpecFile.
  destruct (if Js.truthy fileOverride then fileOverride else None) as [f|].
  - rewrite (includes_Permutation jsons jsons' f Hperm).
    by destruct (Js.includes jsons' f).
  - destruct jsons as [|j1 [|j2 rest]].
    + by rewrite (Permutation_nil Hperm).
    + by rewrite (Permutation_length_1_inv Hperm).
    + pose proof (Permutation_length Hperm) as Hlen.
      destruct jsons' as [|k1 [|k2 rest']]; simpl in Hlen; [lia|lia|].
      rewrite (firstIncluded_Permutation _ _ _ Hperm).
      by destruct (firstIncluded _ _).
Qed.

Lemma pickSpecFile_order_irrelevant_witness :
  pickSpecFile "b" ["b.json"; "a.json"] None = Return "b.json".
Proof.
  pose proof (pickSpecFile_order_irrelevant "b" ["a.json"; "b.json"]
                ["b.json"; "a.json"] None) as H.
  destruct (pickSpecFile "b" ["b.json"; "a.json"] None) as [chosen|e] eqn:Hpick.
  - rewrite <- H; [reflexivity|]. apply Permutation_swap.
  - exfalso. vm_compute in Hpick. discriminate.
Defined.

End SelectorMore.

(** ** The ranker *)

Section RankerMore.

Import Cli.

Variable localeCompare : string → string → Z.

(** X3. The ranking is a rearrangement of its input: no label is lost,
    added or repeated. *)
Theorem rankDescending_rearranges (versions : list string) :
  rankDescending localeCompare versions ≡ₚ versions.
Proof. apply sort_Permutation. Qed.

(** X4. [pickLatest] is [undefined] exactly on the empty list, and otherwise
    returns one of the given labels. *)
Theorem pickLatest_is_a_version (versions : list string) :
  (pickLatest localeCompare versions = None ↔ versions = []) ∧
  (∀ latest, pickLatest localeCompare versions = Some latest →
             latest ∈ versions).
Proof.
  unfold pickLatest.
  pose proof (sort_Permutation (compareVersionsDesc localeCompare) versions)
    as Hperm.
  fold (rankDescending localeCompare versions) in Hperm.
  destruct (rankDescending localeCompare versions) as [|l rest]; simpl.
  - apply Permutation_nil in Hperm as ->. split; [done|]. by intros.
  - split.
    + split; [done|]. intros ->. symmetry in Hperm.
      by apply Permutation_nil_cons in Hperm.
    + intros latest [= <-]. rewrite <- Hperm. by left.
Qed.

(** X5. When some given label is stable, the label [pickLatest] returns is
    stable: a prerelease is the latest only when there is nothing else. *)
Theorem pickLatest_prefers_stable (versions : list string) (a : string) :
  a ∈ versions → isStableVersion a = true →
  ∃ latest,
    pickLatest localeCompare versions = Some latest ∧
    isStableVersion latest = true.
Proof.
  intros Hin Ha. unfold pickLatest.
  destruct (rankDescending_partition localeCompare versions)
    as (st & pre & Hrank & Hst & Hpre).
  rewrite Hrank.
  rewrite <- (sort_Permutation (compareVersionsDesc localeCompare) versions) in Hin.
  fold (rankDescending localeCompare versions) in Hin. rewrite Hrank in Hin.
  destruct st as [|l st].
  - simpl in Hin. rewrite Forall_forall in Hpre. specialize (Hpre a Hin).
    simpl in Hpre. congruence.
  - exists l. split; [done|]. by apply Forall_cons_1 in Hst as [Hl _].
Qed.

Lemma nth_app_zeros (ts : list Z) (k j : nat) :
  nth j (ts ++ replicate k 0%Z) 0%Z = nth j ts 0%Z.
Proof.
  pose proof (nth_padTo (length ts + k) j ts) as H. unfold Spec.padTo in H.
  by replace (length ts + k - length ts)%nat with k in H by lia.
Qed.

(** X6. Trailing zero tokens do not count: when the tokens of [b] are those
    of [a] followed by zeros (as for [7.1] and [7.1.0]) and both labels are
    in one partition, the comparator is the string comparison of the two
    labels, reversed. *)
Theorem trailing_zero_tokens_tie (a b : string) (k : nat) :
  isStableVersion a = isStableVersion b →
  versionTokens b = versionTokens a ++ replicate k 0%Z →
  compareVersionsDesc localeCompare a b = localeCompare b a ∧
  compareVersionsDesc localeCompare b a = localeCompare a b.
Proof.
  intros Hsame Htok. unfold compareVersionsDesc.
  rewrite Hsame, !bool_decide_eq_false_2 by (intros H; by apply H).
  rewrite Htok.
  set (ta := versionTokens a).
  rewrite (tokenLoop_ext ta (ta ++ replicate k 0%Z) ta ta)
    by (done || intros j; apply nth_app_zeros).
  rewrite (tokenLoop_ext (ta ++ replicate k 0%Z) ta ta ta)
    by (done || intros j; apply nth_app_zeros).
  by rewrite !tokenLoop_same.
Qed.

(** X7. [isStableVersion] is false exactly for the labels in which one of
    [preview], [beta], [rc] occurs, letter case ignored. *)
Theorem isStableVersion_false_iff (v : string) :
  isStableVersion v = false ↔
  ∃ marker, marker ∈ ["preview"; "beta"; "rc"] ∧ Spec.containsCI marker v.
Proof.
  unfold isStableVersion. rewrite negb_false_iff. apply regexTestCI_spec.
Qed.

Lemma splitGo_pieces (s cur : string) (inSep : bool) :
  Spec.allDigits cur = true →
  Forall (λ x, Spec.allDigits x = true) (Js.splitGo cur inSep s).
Proof.
  revert cur inSep. induction s as [|c s IH]; intros cur inSep Hcur; simpl.
  - by constructor.
  - destruct (Js.isDigit c) eqn:Hc.
    + apply IH. by apply allDigits_snoc.
    + destruct inSep; [by apply IH|]. constructor; [done|]. by apply IH.
Qed.

(** X8. Every piece of a label that reaches [parseInt] is a non-empty run
    of decimal digits, so no token is NaN, and no token is negative. *)
Theorem versionTokens_are_numbers (v : string) :
  Forall (λ x, Spec.allDigits x = true ∧ x ≠ "")
    (filter (λ x, Js.truthy (Some x) = true) (Js.splitNonDigits v)) ∧
  Forall (λ t, (0 ≤ t)%Z) (versionTokens v).
Proof.
  split.
  - apply Forall_forall. intros x [Hx Hin]%list_elem_of_filter. split.
    + pose proof (splitGo_pieces v "" false eq_refl) as Hall.
      rewrite Forall_forall in Hall. by apply Hall.
    + intros ->. discriminate.
  - unfold versionTokens. apply Forall_fmap, Forall_forall. intros x _.
    by apply parseDigits_nonneg.
Qed.

End RankerMore.

Lemma pickLatest_is_a_version_witness :
  "7.1" ∈ ["7.0"; "7.1"].
Proof.
  apply (proj2 (pickLatest_is_a_version Sample.unitCompare ["7.0"; "7.1"])).
  reflexivity.
Defined.

Lemma pickLatest_prefers_stable_witness :
  ∃ latest,
    Cli.pickLatest Sample.unitCompare ["7.2-preview"; "7.1"] = Some latest ∧
    Cli.isStableVersion latest = true.
Proof.
  apply (pickLatest_prefers_stable Sample.unitCompare ["7.2-preview"; "7.1"] "7.1").
  - apply (bool_decide_unpack _). vm_compute. exact I.
  - reflexivity.
Defined.

Lemma trailing_zero_tokens_tie_witness :
  Cli.compareVersionsDesc Sample.unitCompare "7.1" "7.1.0"
  = Sample.unitCompare "7.1.0" "7.1".
Proof.
  apply (trailing_zero_tokens_tie Sample.unitCompare "7.1" "7.1.0" 1);
    reflexivity.
Defined.

(** ** The comparator as an order *)

Section Consistency.

Import Cli.

Lemma lexCompare_Eq (xs ys : list Z) : Spec.lexCompare xs ys = Eq → xs = ys.
Proof.
  revert ys. induction xs as [|x xs IH]; intros [|y ys]; simpl; try done.
  destruct (Z.compare_spec x y) as [->|Hlt|Hgt]; try done.
  intros H. by rewrite (IH ys H).
Qed.

Lemma lexCompare_refl (xs : list Z) : Spec.lexCompare xs xs = Eq.
Proof.
  induction xs as [|x xs IH]; simpl; [done|]. by rewrite Z.compare_refl.
Qed.

Lemma lexCompare_antisym (xs ys : list Z) :
  Spec.lexCompare ys xs = CompOpp (Spec.lexCompare xs ys).
Proof.
  revert ys. induction xs as [|x xs IH]; intros [|y ys]; simpl; try done.
  rewrite (Z.compare_antisym x y).
  destruct (x ?= y)%Z; simpl; [apply IH|done|done].
Qed.

Lemma lexCompare_trans_Gt (xs ys zs : list Z) :
  Spec.lexCompare xs ys = Gt → Spec.lexCompare ys zs = Gt →
  Spec.lexCompare xs zs = Gt.
Proof.
  revert ys zs. induction xs as [|x xs IH]; intros [|y ys] [|z zs]; simpl;
    try done.
  destruct (x ?= y)%Z eqn:Hxy; destruct (y ?= z)%Z eqn:Hyz; try done.
  - apply Z.compare_eq_iff in Hxy, Hyz. subst.
    rewrite Z.compare_refl. apply IH.
  - apply Z.compare_eq_iff in Hxy. subst. by rewrite Hyz.
  - apply Z.compare_eq_iff in Hyz. subst. by rewrite Hxy.
  - apply Z.compare_gt_iff in Hxy, Hyz.
    assert (z < x)%Z as H by lia. by apply Z.compare_gt_iff in H as ->.
Qed.

Lemma tokenLoop_beyond (ta tb : list Z) (n i : nat) :
  (length ta ≤ i)%nat → (length tb ≤ i)%nat → tokenLoop ta tb n i = None.
Proof.
  revert i. induction n as [|n IH]; intros i Ha Hb; simpl; [done|].
  rewrite !nth_overflow by lia.
  rewrite bool_decide_eq_false_2 by (intros H; by apply H).
  apply IH; lia.
Qed.

Lemma tokenLoop_split (ta tb : list Z) (n k i : nat) :
  tokenLoop ta tb (n + k) i
  = match tokenLoop ta tb n i with
    | Some d => Some d
    | None => tokenLoop ta tb k (i + n)
    end.
Proof.
  revert i. induction n as [|n IH]; intros i; simpl.
  - by rewrite Nat.add_0_r.
  - case_bool_decide; [done|]. rewrite IH.
    by replace (S i + n)%nat with (i + S n)%nat by lia.
Qed.

(** The sign of the comparator on one partition, read on sequences padded
    to any common length. *)
Lemma compareVersionsDesc_sign (localeCompare : string → string → Z)
    (a b : string) (n : nat) :
  isStableVersion a = isStableVersion b →
  (length (versionTokens a) ≤ n)%nat → (length (versionTokens b) ≤ n)%nat →
  (compareVersionsDesc localeCompare a b ?= 0)%Z
  = match Spec.lexCompare (Spec.padTo n (versionTokens a))
            (Spec.padTo n (versionTokens b)) with
    | Gt => Lt
    | Lt => Gt
    | Eq => (localeCompare b a ?= 0)%Z
    end.
Proof.
  intros Hsame Ha Hb. unfold compareVersionsDesc.
  rewrite Hsame, bool_decide_eq_false_2 by (intros H; by apply H).
  set (ta := versionTokens a) in *. set (tb := versionTokens b) in *.
  set (m := Nat.max (length ta) (length tb)).
  assert (tokenLoop ta tb m 0 = tokenLoop ta tb n 0) as ->.
  { replace n with (m + (n - m))%nat by lia. rewrite tokenLoop_split.
    destruct (tokenLoop ta tb m 0); [done|].
    symmetry. apply tokenLoop_beyond; lia. }
  rewrite (tokenLoop_ext ta tb (Spec.padTo n ta) (Spec.padTo n tb))
    by (intros j; by rewrite nth_padTo).
  apply tokenLoop_lexCompare; by apply length_padTo.
Qed.

Lemma sgn_compare (x y : Z) :
  Z.sgn x = (- Z.sgn y)%Z ↔ (x ?= 0)%Z = CompOpp (y ?= 0)%Z.
Proof. destruct x, y; simpl; split; (done || discriminate). Qed.

Lemma le_compare (x : Z) : (x ≤ 0)%Z ↔ (x ?= 0)%Z ≠ Gt.
Proof. done. Qed.

Variable localeCompare : string → string → Z.
Hypothesis consistent : Notions.consistent localeCompare.

Lemma compareVersionsDesc_antisym (a b : string) :
  Z.sgn (compareVersionsDesc localeCompare a b)
  = (- Z.sgn (compareVersionsDesc localeCompare b a))%Z.
Proof.
  destruct consistent as [Hanti _].
  destruct (decide (isStableVersion a = isStableVersion b)) as [Hsame|Hdiff].
  - apply sgn_compare.
    set (n := Nat.max (length (versionTokens a)) (length (versionTokens b))).
    rewrite (compareVersionsDesc_sign _ a b n), (compareVersionsDesc_sign _ b a n)
      by (done || lia).
    rewrite (lexCompare_antisym (Spec.padTo n (versionTokens a))).
    destruct (Spec.lexCompare _ _); simpl; [|done|done].
    apply sgn_compare, Hanti.
  - unfold compareVersionsDesc.
    rewrite !bool_decide_eq_true_2 by congruence.
    by destruct (isStableVersion a), (isStableVersion b).
Qed.

Lemma compareVersionsDesc_trans (a b c : string) :
  (compareVersionsDesc localeCompare a b ≤ 0)%Z →
  (compareVersionsDesc localeCompare b c ≤ 0)%Z →
  (compareVersionsDesc localeCompare a c ≤ 0)%Z.
Proof.
  destruct consistent as [_ Htrans].
  destruct (isStableVersion a) eqn:Ha, (isStableVersion b) eqn:Hb,
    (isStableVersion c) eqn:Hc;
    try (unfold compareVersionsDesc; rewrite ?Ha, ?Hb, ?Hc; simpl; lia).
  all: set (n := Nat.max (length (versionTokens a))
                   (Nat.max (length (versionTokens b)) (length (versionTokens c))));
    rewrite !le_compare;
    rewrite (compareVersionsDesc_sign _ a b n), (compareVersionsDesc_sign _ b c n),
      (compareVersionsDesc_sign _ a c n) by (congruence || lia);
    destruct (Spec.lexCompare (Spec.padTo n (versionTokens a))
                (Spec.padTo n (versionTokens b))) eqn:Hab;
    destruct (Spec.lexCompare (Spec.padTo n (versionTokens b))
                (Spec.padTo n (versionTokens c))) eqn:Hbc;
    try done.
  all: try (apply lexCompare_Eq in Hab; rewrite Hab, ?Hbc;
            try apply lexCompare_Eq in Hbc; rewrite ?Hbc, ?lexCompare_refl;
            rewrite <- ?le_compare; intros; by eauto).
  all: try (apply lexCompare_Eq in Hbc; rewrite <- Hbc, Hab; done).
  all: by rewrite (lexCompare_trans_Gt _ _ _ Hab Hbc).
Qed.

(** The ranking of a consistent comparison leaves every label before all
    the labels that follow it. *)
Lemma rankDescending_StronglySorted (versions : list string) :
  StronglySorted (λ a b, (compareVersionsDesc localeCompare a b ≤ 0)%Z)
    (rankDescending localeCompare versions).
Proof.
  apply Sorted_StronglySorted.
  - intros a b c. apply compareVersionsDesc_trans.
  - apply sort_Sorted. intros a b Hpos.
    pose proof (compareVersionsDesc_antisym a b). lia.
Qed.

End Consistency.

(** The comparison of strings by code units is consistent. *)
Lemma unitCompare_consistent : Notions.consistent Sample.unitCompare.
Proof.
  assert (∀ a b, (Sample.unitCompare a b ≤ 0)%Z ↔
                 a = b ∨ OrderedTypeEx.String_as_OT.lt a b) as Hle.
  { intros a b. unfold Sample.unitCompare.
    rewrite <- OrderedTypeEx.String_as_OT.cmp_lt,
      <- OrderedTypeEx.String_as_OT.cmp_eq.
    unfold OrderedTypeEx.String_as_OT.cmp.
    destruct (String.compare a b);
      intuition (lia || discriminate || auto). }
  split.
  - intros a b. unfold Sample.unitCompare.
    rewrite (String.compare_antisym a b).
    by destruct (String.compare b a).
  - intros a b c. rewrite !Hle. intros [->|Hab] [->|Hbc]; auto.
    right. by apply (OrderedTypeEx.String_as_OT.lt_trans a b c).
Qed.







(** ** The raw URL *)

Section RawUrl.

Import Uri.

Lemma occurs_nil (c : ascii) : ¬ Notions.occurs c EmptyString.
Proof. intros (before & after & H). by destruct before. Qed.

Lemma occurs_cons (c a : ascii) (s : string) :
  Notions.occurs c (String a s) ↔ c = a ∨ Notions.occurs c s.
Proof.
  split.
  - intros (before & after & H). destruct before as [|b before]; simpl in H.
    + injection H as -> _. by left.
    + injection H as _ ->. right. by exists before, after.
  - intros [->|(before & after & ->)].
    + by exists EmptyString, s.
    + by exists (String a before), after.
Qed.

Lemma hexDigit_value (n : nat) :
  (n < 16)%nat →
  Ascii.nat_of_ascii (hexDigit n)
  = (if (n <? 10)%nat then 48 + n else 55 + n)%nat.
Proof.
  intros Hn. unfold hexDigit. apply Ascii.nat_ascii_embedding.
  destruct (n <? 10)%nat; lia.
Qed.

Lemma hexDigit_unreserved (n : nat) :
  (n < 16)%nat → isUnreserved (hexDigit n) = true.
Proof.
  intros Hn. do 16 (destruct n as [|n]; [reflexivity|]). lia.
Qed.

Lemma hexDigit_inj (n m : nat) :
  (n < 16)%nat → (m < 16)%nat → hexDigit n = hexDigit m → n = m.
Proof.
  intros Hn Hm Heq. apply (f_equal Ascii.nat_of_ascii) in Heq.
  rewrite !hexDigit_value in Heq by done.
  destruct (Nat.ltb_spec n 10), (Nat.ltb_spec m 10); lia.
Qed.

Lemma octet_halves (c : ascii) :
  (Ascii.nat_of_ascii c / 16 < 16)%nat ∧ (Ascii.nat_of_ascii c mod 16 < 16)%nat.
Proof.
  pose proof (Ascii.nat_ascii_bounded c) as Hc. split.
  - apply Nat.Div0.div_lt_upper_bound. lia.
  - apply Nat.mod_upper_bound. lia.
Qed.

Lemma encodeURIComponent_units (s : string) (c : ascii) :
  Notions.occurs c (encodeURIComponent s) →
  isUnreserved c = true ∨ c = "%"%char.
Proof.
  induction s as [|a s IH]; simpl.
  - intros H. by apply occurs_nil in H.
  - destruct (isUnreserved a) eqn:Ha; simpl.
    + intros [->|H]%occurs_cons; [by left | by apply IH].
    + destruct (octet_halves a) as [Hhi Hlo].
      intros [->|[->|[->|H]%occurs_cons]%occurs_cons]%occurs_cons.
      * by right.
      * left. by apply hexDigit_unreserved.
      * left. by apply hexDigit_unreserved.
      * by apply IH.
Qed.

Lemma encodeURIComponent_inj (s1 s2 : string) :
  encodeURIComponent s1 = encodeURIComponent s2 → s1 = s2.
Proof.
  revert s2. induction s1 as [|a1 s1 IH]; intros [|a2 s2];
    cbn -[Nat.div Nat.modulo].
  - done.
  - by destruct (isUnreserved a2).
  - by destruct (isUnreserved a1).
  - destruct (isUnreserved a1) eqn:H1, (isUnreserved a2) eqn:H2;
      cbn -[Nat.div Nat.modulo]; intros Heq.
    + injection Heq as -> Heq. by rewrite (IH _ Heq).
    + injection Heq as -> _. discriminate.
    + injection Heq as <- _. discriminate.
    + injection Heq as Hhi Hlo Heq.
      destruct (octet_halves a1) as [? ?], (octet_halves a2) as [? ?].
      assert (Ascii.nat_of_ascii a1 / 16 = Ascii.nat_of_ascii a2 / 16)%nat
        as Ehi by (apply hexDigit_inj; [done..|exact Hhi]).
      assert (Ascii.nat_of_ascii a1 mod 16 = Ascii.nat_of_ascii a2 mod 16)%nat
        as Elo by (apply hexDigit_inj; [done..|exact Hlo]).
      assert (Ascii.nat_of_ascii a1 = Ascii.nat_of_ascii a2) as Hn.
      { pose proof (Nat.div_mod_eq (Ascii.nat_of_ascii a1) 16).
        pose proof (Nat.div_mod_eq (Ascii.nat_of_ascii a2) 16). lia. }
      apply (f_equal Ascii.ascii_of_nat) in Hn.
      rewrite !Ascii.ascii_nat_embedding in Hn. subst a2.
      by rewrite (IH _ Heq).
Qed.

Lemma string_app_inv_head (p x y : string) : p +:+ x = p +:+ y → x = y.
Proof.
  induction p as [|c p IH]; simpl; [done|]. intros [= H]. by apply IH.
Qed.

Lemma split_at_unit (c : ascii) (x x' y y' : string) :
  ¬ Notions.occurs c x → ¬ Notions.occurs c x' →
  x +:+ String c y = x' +:+ String c y' → x = x' ∧ y = y'.
Proof.
  revert x'. induction x as [|a x IH]; intros [|a' x'] Hx Hx'; simpl.
  - by intros [= ->].
  - intros [= <- _]. exfalso. apply Hx', occurs_cons. by left.
  - intros [= -> _]. exfalso. apply Hx, occurs_cons. by left.
  - intros [= -> Heq].
    destruct (IH x') as [-> ->]; [| |done|done].
    + intros H. apply Hx, occurs_cons. by right.
    + intros H. apply Hx', occurs_cons. by right.
Qed.

Lemma encodeURIComponent_no_slash (s : string) :
  ¬ Notions.occurs "/"%char (encodeURIComponent s).
Proof.
  intros [H|H]%encodeURIComponent_units; discriminate.
Qed.

(** X12. [encodeURIComponent] yields unreserved characters and [%] only; in
    particular no [/], [?] or [#], so an encoded name stays one segment of
    the path of the URL. *)
Theorem encodeURIComponent_stays_in_segment (s : string) :
  (∀ c, Notions.occurs c (encodeURIComponent s) →
        isUnreserved c = true ∨ c = "%"%char) ∧
  ¬ Notions.occurs "/"%char (encodeURIComponent s) ∧
  ¬ Notions.occurs "?"%char (encodeURIComponent s) ∧
  ¬ Notions.occurs "#"%char (encodeURIComponent s).
Proof.
  split; [intros c; apply encodeURIComponent_units|].
  repeat split; intros [H|H]%encodeURIComponent_units; discriminate.
Qed.

Lemma encodeURIComponent_stays_in_segment_witness :
  ¬ Notions.occurs "/"%char (encodeURIComponent "../etc/passwd").
Proof.
  apply (encodeURIComponent_stays_in_segment "../etc/passwd").
Defined.

(** X13. [rawSpecUrl] is injective: two URLs are equal only for the same
    API, version, file and ref. *)
Theorem rawSpecUrl_injective (api version file ref api' version' file' ref' : string) :
  rawSpecUrl api version file ref = rawSpecUrl api' version' file' ref' →
  api = api' ∧ version = version' ∧ file = file' ∧ ref = ref'.
Proof.
  unfold rawSpecUrl. intros H.
  do 4 apply string_app_inv_head in H.
  apply string_app_inv_head in H.
  apply split_at_unit in H as [Href H]; [|apply encodeURIComponent_no_slash..].
  apply (string_app_inv_head "specification/") in H.
  apply split_at_unit in H as [Hapi H]; [|apply encodeURIComponent_no_slash..].
  apply split_at_unit in H as [Hver H]; [|apply encodeURIComponent_no_slash..].
  by rewrite (encodeURIComponent_inj _ _ Href), (encodeURIComponent_inj _ _ Hapi),
    (encodeURIComponent_inj _ _ Hver), (encodeURIComponent_inj _ _ H).
Qed.

Lemma rawSpecUrl_injective_witness :
  "graph" = "graph" ∧ "7.1" = "7.1" ∧ "graph.json" = "graph.json" ∧
  "master" = "master".
Proof.
  apply (rawSpecUrl_injective "graph" "7.1" "graph.json" "master").
  reflexivity.
Defined.

End RawUrl.

(** ** The listings *)

Section ListingFacts.

Import Listing.

Variable defaultCompare : string → string → Z.

Lemma endsWith_spec (s suffix : string) :
  endsWith s suffix = true ↔ ∃ before, s = before +:+ suffix.
Proof.
  induction s as [|c s IH]; simpl; rewrite orb_true_iff, bool_decide_eq_true.
  - split.
    + intros [<-|]; [by exists EmptyString | done].
    + intros (before & H). left. destruct before; [done|discriminate].
  - rewrite IH. split.
    + intros [<-|(before & ->)]; [by exists EmptyString|].
      by exists (String c before).
    + intros (before & H). destruct before as [|b before]; simpl in H.
      * by left.
      * injection H as _ ->. right. by exists before.
Qed.

Lemma elem_of_jsonNames (items : list GitHubContentItem) (n : string) :
  n ∈ jsonNames defaultCompare items ↔
  ∃ i, i ∈ items ∧ type i = file ∧ name i = n ∧
       ∃ before, toLowerCase n = before +:+ ".json".
Proof.
  unfold jsonNames. rewrite sort_Permutation, list_elem_of_fmap. split.
  - intros (i & -> & [Hkeep Hin]%list_elem_of_filter).
    apply andb_true_iff in Hkeep as [Hfile Hjson]. exists i.
    split; [done|]. split; [unfold isFile in Hfile; by destruct (type i)|].
    split; [done|]. by apply endsWith_spec.
  - intros (i & Hin & Hfile & <- & Hjson). exists i. split; [done|].
    apply list_elem_of_filter. split; [|done].
    apply andb_true_iff. split; [unfold isFile; by rewrite Hfile|].
    by apply endsWith_spec.
Qed.

(** X14. The candidates [listJsonFiles] returns are exactly the names of the
    entries of the listing that are files and whose name ends in [.json],
    letter case ignored; directories and other files are left out. *)
Theorem jsonNames_are_json_files (items : list GitHubContentItem) (n : string) :
  n ∈ jsonNames defaultCompare items ↔
  ∃ i, i ∈ items ∧ type i = file ∧ name i = n ∧
       ∃ before, toLowerCase n = before +:+ ".json".
Proof.
  unfold jsonNames. rewrite sort_Permutation, list_elem_of_fmap. split.
  - intros (i & -> & [Hkeep Hin]%list_elem_of_filter).
    apply andb_true_iff in Hkeep as [Hfile Hjson]. exists i.
    split; [done|]. split; [unfold isFile in Hfile; by destruct (type i)|].
    split; [done|]. by apply endsWith_spec.
  - intros (i & Hin & Hfile & <- & Hjson). exists i. split; [done|].
    apply list_elem_of_filter. split; [|done].
    apply andb_true_iff. split; [unfold isFile; by rewrite Hfile|].
    by apply endsWith_spec.
Qed.

(** X15. [listApis] and [listVersions] return exactly the names of the
    directories of the listing; files are left out. *)
Theorem dirNames_are_directories (items : list GitHubContentItem) (n : string) :
  n ∈ dirNames defaultCompare items ↔
  ∃ i, i ∈ items ∧ type i = dir ∧ name i = n.
Proof.
  unfold dirNames. rewrite sort_Permutation, list_elem_of_fmap. split.
  - intros (i & -> & [Hdir Hin]%list_elem_of_filter). exists i.
    split; [done|]. split; [|done]. unfold isDir in Hdir. by destruct (type i).
  - intros (i & Hin & Hdir & <-). exists i. split; [done|].
    apply list_elem_of_filter. split; [|done]. unfold isDir. by rewrite Hdir.
Qed.

(** X16. Whatever the override, the document [pickSpecFile] chooses among
    the candidates of [listJsonFiles] is the name of a file of the listing
    that ends in [.json]: never a directory, never another kind of file. *)
Theorem chosen_document_is_listed_json (items : list GitHubContentItem)
    (api : string) (fileOverride : option string) (chosen : string) :
  Github.pickSpecFile api (jsonNames defaultCompare items) fileOverride
  = Return chosen →
  ∃ i, i ∈ items ∧ type i = file ∧ name i = chosen ∧
       ∃ before, toLowerCase chosen = before +:+ ".json".
Proof.
  intros Hpick. apply elem_of_jsonNames.
  by apply (pickSpecFile_Return_elem_of api _ fileOverride).
Qed.

End ListingFacts.

Lemma jsonNames_are_json_files_witness :
  "Notes.JSON" ∈ Listing.jsonNames Sample.unitCompare Sample2.items.
Proof.
  apply (jsonNames_are_json_files Sample.unitCompare Sample2.items "Notes.JSON").
  eexists. split.
  { apply list_elem_of_lookup. by exists 2%nat. }
  split; [reflexivity|]. split; [reflexivity|]. by exists "notes".
Defined.

Lemma dirNames_are_directories_witness :
  "httpExamples" ∈ Listing.dirNames Sample.unitCompare Sample2.items.
Proof.
  apply (dirNames_are_directories Sample.unitCompare Sample2.items "httpExamples").
  eexists. split.
  { apply list_elem_of_lookup. by exists 1%nat. }
  split; reflexivity.
Defined.

Lemma chosen_document_is_listed_json_witness :
  ∃ i, i ∈ Sample2.items ∧ Listing.type i = Listing.file ∧
       Listing.name i = "graph.json" ∧
       ∃ before, Listing.toLowerCase "graph.json" = before +:+ ".json".
Proof.
  apply (chosen_document_is_listed_json Sample.unitCompare Sample2.items
           "graph" None "graph.json").
  reflexivity.
Defined.

(** ** The single-target actions and the exit of the bulk action *)

Section ActionFacts.

Variable env : Bulk.Env.

Lemma logCalls_app (t1 t2 : list Bulk.Event) :
  Notions.logCalls (t1 ++ t2) = Notions.logCalls t1 ++ Notions.logCalls t2.
Proof.
  induction t1 as [|e t1 IH]; simpl; [done|]. destruct e; simpl; by rewrite ?IH.
Qed.

Lemma errorCalls_app (t1 t2 : list Bulk.Event) :
  Notions.errorCalls (t1 ++ t2)
  = Notions.errorCalls t1 ++ Notions.errorCalls t2.
Proof.
  induction t1 as [|e t1 IH]; simpl; [done|]. destruct e; simpl; by rewrite ?IH.
Qed.

Lemma logEach_run (xs : list string) (s : Bulk.State env) :
  Commands.logEach env xs s
  = (Bulk.Normal tt,
     Bulk.Build_State env (Bulk.world env s)
       (Bulk.trace env s ++ (Bulk.Stdout <$> xs))).
Proof.
  revert s. induction xs as [|x xs IH]; intros s; simpl.
  - unfold Bulk.ret. destruct s. simpl. by rewrite app_nil_r.
  - unfold Bulk.bind, Bulk.consoleLog, Bulk.emit. rewrite IH. simpl.
    by rewrite <- app_assoc.
Qed.

Lemma logCalls_Stdout (xs : list string) :
  Notions.logCalls (Bulk.Stdout <$> xs) = xs.
Proof. induction xs as [|x xs IH]; csimpl; [done|]. by f_equal. Qed.

Lemma errorCalls_Stdout (xs : list string) :
  Notions.errorCalls (Bulk.Stdout <$> xs) = [].
Proof. induction xs as [|x xs IH]; csimpl; done. Qed.



Variable opts : Bulk.Options.

(** X19. The exit of [generate-latest] depends on the list of APIs alone:
    when it is obtained, the action ends normally with [Finalizado.] as its
    last line after asking for the versions of every API, whatever fails for
    the single APIs; when it is not, the error is printed and the process
    exits with status 1 before any API is touched. *)
Theorem generateLatest_exit (s : Bulk.State env) :
  match Bulk.listApis env (Bulk.ref opts) (Bulk.world env s) with
  | (Return apis, _) =>
      ∃ s',
        Bulk.generateLatest env opts s = (Bulk.Normal tt, s') ∧
        last (Bulk.trace env s') = Some (Bulk.Stdout "Finalizado.") ∧
        Bulk.versionRequests (Bulk.trace env s')
        = Bulk.versionRequests (Bulk.trace env s) ++ apis
  | (Throw msg, w') =>
      Bulk.generateLatest env opts s
      = (Bulk.Exit 1,
         Bulk.Build_State env w'
           ((Bulk.trace env s ++ [Bulk.CallListApis (Bulk.ref opts)]) ++
            [Bulk.Stderr ("❌ " +:+ msg)]))
  end.
Proof.
  destruct (Bulk.listApis env (Bulk.ref opts) (Bulk.world env s))
    as [[apis|msg] w'] eqn:Hapis.
  - by apply (generateLatest_completes env opts apis w').
  - by apply generateLatest_dies.
Qed.

Local Abbreviation calls := Notions.consoleCalls.

Lemma iteration_calls (api : string) (s : Bulk.State env) :
  ∃ s',
    (Bulk.iteration env opts api s = (Bulk.Normal tt, s') ∨
     Bulk.iteration env opts api s = (Bulk.Continue, s')) ∧
    (calls (Bulk.trace env s') ≤ calls (Bulk.trace env s) + 1)%nat.
Proof.
  unfold Bulk.iteration, Bulk.tryCatch, Bulk.tryBlock, Bulk.bind, Bulk.call,
    Bulk.pickSpecFileM, Bulk.continue, Bulk.throw, Bulk.ret, Bulk.consoleLog,
    Bulk.consoleError, Bulk.emit.
  repeat (case_match; unfold Bulk.tryCatch in *; simplify_eq/=);
    eexists; (split; [by (left + right)|]);
    unfold Notions.consoleCalls; simpl;
    rewrite ?logCalls_app, ?errorCalls_app, ?length_app; simpl; lia.
Qed.

(** X20. The loop of [generate-latest] calls [console.log] and
    [console.error] at most once for each API, both counted together.  What
    the generator, a child process on the same streams, writes there is not
    a call of the action and is not counted. *)
Theorem loop_one_console_call_per_api (apis : list string) (s : Bulk.State env) :
  (Notions.consoleCalls (Bulk.trace env (Bulk.loop env opts apis s).2)
   ≤ Notions.consoleCalls (Bulk.trace env s) + length apis)%nat.
Proof.
  unfold Bulk.loop. revert s. induction apis as [|api apis IH]; intros s; simpl.
  - lia.
  - destruct (iteration_calls api s) as (s1 & [-> | ->] & Hcalls);
      specialize (IH s1); lia.
Qed.

End ActionFacts.

(** ** utils.ts: [ensureDir] and [writeFile] *)

Section FileSystem.

Import Scaffold.

Lemma mkdirs_dirs (parent todo : list string) (d d' : fs) :
  mkdirs parent todo d = Some d' →
  ∀ k, (1 ≤ k ≤ length todo)%nat → d' !! (parent ++ take k todo) = Some Dir.
Proof.
  revert parent d. induction todo as [|seg todo IH]; intros parent d Hmk k Hk;
    simpl in *; [lia|].
  assert (∀ d1, d1 !! (parent ++ [seg]) = Some Dir →
            mkdirs (parent ++ [seg]) todo d1 = Some d' →
            d' !! (parent ++ take k (seg :: todo)) = Some Dir) as Hstep.
  { intros d1 Hhere Hmk1. destruct k as [|[|k]]; [lia| |].
    - by apply (mkdirs_preserves _ _ _ _ _ _ Hmk1).
    - replace (parent ++ take (S (S k)) (seg :: todo))
        with ((parent ++ [seg]) ++ take (S k) todo)
        by (by rewrite <- app_assoc).
      apply (IH _ _ Hmk1). lia. }
  destruct (d !! (parent ++ [seg])) as [[|content]|] eqn:Hhere.
  - by apply (Hstep d).
  - discriminate.
  - apply (Hstep _ (lookup_insert_eq _ _ _) Hmk).
Qed.

Lemma mkdirs_None_iff (parent todo : list string) (d : fs) :
  mkdirs parent todo d = None ↔
  ∃ k content, (1 ≤ k ≤ length todo)%nat ∧
               d !! (parent ++ take k todo) = Some (File content).
Proof.
  split.
  - revert parent d. induction todo as [|seg todo IH]; intros parent d; simpl;
      [done|].
    assert (∀ d1, (∀ q, (length (parent ++ [seg]) < length q)%nat →
                        d1 !! q = d !! q) →
              mkdirs (parent ++ [seg]) todo d1 = None →
              ∃ k content, (1 ≤ k ≤ S (length todo))%nat ∧
                d !! (parent ++ take k (seg :: todo)) = Some (File content))
      as Hstep.
    { intros d1 Hsame (k & content & Hk & Hfile)%IH.
      exists (S k), content. split; [lia|].
      rewrite Hsame in Hfile by (rewrite !length_app, length_take; simpl; lia).
      by rewrite <- app_assoc in Hfile. }
    destruct (d !! (parent ++ [seg])) as [[|content]|] eqn:Hhere.
    + by apply Hstep.
    + intros _. exists 1%nat, content. split; [lia|done].
    + apply Hstep. intros q Hq. apply lookup_insert_ne. intros <-. lia.
  - intros (k & content & Hk & Hfile).
    destruct (mkdirs parent todo d) as [d'|] eqn:Hmk; [|done].
    pose proof (mkdirs_dirs _ _ _ _ Hmk k Hk) as Hdir.
    pose proof (mkdirs_preserves _ _ _ _ _ _ Hmk Hfile). congruence.
Qed.

Lemma removelast_take {A : Type} (l : list A) :
  removelast l = take (length l - 1) l.
Proof.
  induction l as [|x [|y l] IH]; [done..|].
  change (removelast (x :: y :: l)) with (x :: removelast (y :: l)).
  rewrite IH. simpl. by rewrite Nat.sub_0_r.
Qed.

Lemma take_removelast {A : Type} (l : list A) (k : nat) :
  (k < length l)%nat → take k (removelast l) = take k l.
Proof.
  intros Hk. rewrite removelast_take, take_take. f_equal. lia.
Qed.

Lemma writeFile_Some (p : list string) (content : string) (d d' : fs) :
  writeFile p content d = Some d' →
  ∃ d1, mkdirs [] (removelast p) d = Some d1 ∧ d1 !! p ≠ Some Dir ∧
        d' = <[p := File content]> d1.
Proof.
  unfold writeFile, ensureDir. intros Hw.
  destruct (mkdirs [] (removelast p) d) as [d1|]; simpl in Hw; [|discriminate].
  exists d1. split; [done|].
  destruct (d1 !! p) as [[|?]|]; simplify_eq; done.
Qed.

(** X21. After [writeFile(p, content)] the file is there with that content
    and every directory on the way to it exists, while everything else that
    existed is as before. *)
Theorem writeFile_creates_parents (p : list string) (content : string)
    (d d' : fs) :
  writeFile p content d = Some d' →
  d' !! p = Some (File content) ∧
  (∀ k, (1 ≤ k < length p)%nat → d' !! take k p = Some Dir) ∧
  (∀ q x, q ≠ p → d !! q = Some x → d' !! q = Some x).
Proof.
  intros (d1 & Hmk & _ & ->)%writeFile_Some. split; [apply lookup_insert_eq|].
  split.
  - intros k Hk. rewrite lookup_insert_ne.
    + rewrite <- take_removelast by lia. apply (mkdirs_dirs [] _ _ _ Hmk).
      rewrite removelast_take, length_take. lia.
    + intros Heq. apply (f_equal length) in Heq. rewrite length_take in Heq. lia.
  - intros q x Hq Hx. rewrite lookup_insert_ne by done.
    by apply (mkdirs_preserves _ _ _ _ _ _ Hmk).
Qed.

(** X22. After [ensureDir(p)] every directory on the way to [p], and [p]
    itself, exists; what existed is as before; and a second call changes
    nothing. *)
Theorem ensureDir_idempotent (p : list string) (d d' : fs) :
  ensureDir p d = Some d' →
  (∀ k, (1 ≤ k ≤ length p)%nat → d' !! take k p = Some Dir) ∧
  (∀ q x, d !! q = Some x → d' !! q = Some x) ∧
  ensureDir p d' = Some d'.
Proof.
  unfold ensureDir. intros Hmk.
  pose proof (mkdirs_dirs [] _ _ _ Hmk) as Hdirs. simpl in Hdirs.
  split; [done|]. split.
  - intros q x. apply (mkdirs_preserves _ _ _ _ _ _ Hmk).
  - by apply mkdirs_present.
Qed.

(** X23. [writeFile(p, content)] fails when a file lies on the way to [p]
    and when [p] is a directory.  (The call can fail for other reasons too,
    such as missing permissions or a full disk, of which nothing is said.) *)
Theorem writeFile_blocked (p : list string) (content : string) (d : fs) :
  (∃ k c, (1 ≤ k < length p)%nat ∧ d !! take k p = Some (File c)) ∨
  d !! p = Some Dir →
  writeFile p content d = None.
Proof.
  unfold writeFile, ensureDir. intros [(k & c & Hk & Hfile) | Hdir].
  - assert (mkdirs [] (removelast p) d = None) as ->; [|done].
    apply mkdirs_None_iff. exists k, c. simpl.
    rewrite removelast_take, length_take, <- removelast_take.
    rewrite take_removelast by lia. split; [lia|done].
  - destruct (mkdirs [] (removelast p) d) as [d1|] eqn:Hmk; simpl; [|done].
    by rewrite (mkdirs_preserves _ _ _ _ _ _ Hmk Hdir).
Qed.

End FileSystem.

Lemma writeFile_creates_parents_witness :
  ∃ d',
    Scaffold.writeFile ["pkg"; "docs"; "a.md"] "x" Sample.generated = Some d' ∧
    d' !! ["pkg"; "docs"; "a.md"] = Some (Scaffold.File "x") ∧
    d' !! ["pkg"; "docs"] = Some Scaffold.Dir.
Proof.
  assert (is_Some (Scaffold.writeFile ["pkg"; "docs"; "a.md"] "x"
                     Sample.generated)) as [d' Hw].
  { apply (bool_decide_unpack _). vm_compute. exact I. }
  exists d'. split; [done|].
  destruct (writeFile_creates_parents _ _ _ _ Hw) as (Hfile & Hdirs & _).
  split; [done|]. apply (Hdirs 2%nat). simpl. lia.
Defined.

Lemma ensureDir_idempotent_witness :
  ∃ d',
    Scaffold.ensureDir ["pkg"; "dist"] Sample.generated = Some d' ∧
    Scaffold.ensureDir ["pkg"; "dist"] d' = Some d'.
Proof.
  assert (is_Some (Scaffold.ensureDir ["pkg"; "dist"] Sample.generated))
    as [d' Hmk].
  { apply (bool_decide_unpack _). vm_compute. exact I. }
  exists d'. split; [done|].
  by destruct (ensureDir_idempotent _ _ _ Hmk) as (_ & _ & Hagain).
Defined.

Lemma writeFile_blocked_witness :
  Scaffold.writeFile ["pkg"; "runtime.ts"; "x.ts"] "" Sample.generated = None ∧
  Scaffold.writeFile ["pkg"; "apis"] "" Sample.generated = None.
Proof.
  split.
  - apply (writeFile_blocked ["pkg"; "runtime.ts"; "x.ts"] "" Sample.generated).
    left. exists 2%nat, "". split; [simpl; lia|]. vm_compute. reflexivity.
  - apply (writeFile_blocked ["pkg"; "apis"] "" Sample.generated).
    right. vm_compute. reflexivity.
Defined.

(** ** scaffold.ts: what [scaffoldPackage] leaves behind *)

Section ScaffoldMore.

Import Scaffold.

Variable stringify : json → string.

(** The content of the entry file for the flags read in [d]. *)
Local Abbreviation entryOf d dir :=
  (Js.join Js.newline
     (exportsLines
        (fileExists d (dir ++ ["apis"; "index.ts"]) ||
         fileExists d (dir ++ ["src"; "apis"; "index.ts"]))
        (fileExists d (dir ++ ["models"; "index.ts"]) ||
         fileExists d (dir ++ ["src"; "models"; "index.ts"]))
        (fileExists d (dir ++ ["configuration.ts"]) ||
         fileExists d (dir ++ ["src"; "configuration.ts"]))
        (fileExists d (dir ++ ["runtime.ts"]) ||
         fileExists d (dir ++ ["src"; "runtime.ts"]))
        (fileExists d (dir ++ ["src"; "index.ts"]) ||
         fileExists d (dir ++ ["src"; "apis"]) ||
         fileExists d (dir ++ ["src"; "models"]))
        (fileExists d (dir ++ ["src"; "index.ts"])))
   +:+ Js.newline).

Lemma writeFile_into_inv (dir : list string) (name content : string) (d d' : fs) :
  (∀ k, (1 ≤ k ≤ length dir)%nat → d !! take k dir = Some Dir) →
  writeFile (dir ++ [name]) content d = Some d' →
  d' = <[dir ++ [name] := File content]> d.
Proof.
  intros Hdirs (d1 & Hmk & _ & ->)%writeFile_Some.
  rewrite removelast_last, mkdirs_present in Hmk by done. by simplify_eq.
Qed.

Lemma insert_keeps_dirs (dir : list string) (name : string) (x : node) (d : fs) :
  (∀ k, (1 ≤ k ≤ length dir)%nat → d !! take k dir = Some Dir) →
  ∀ k, (1 ≤ k ≤ length dir)%nat →
       <[dir ++ [name] := x]> d !! take k dir = Some Dir.
Proof.
  intros Hdirs k Hk. rewrite lookup_insert_ne; [by apply Hdirs|].
  intros Heq. apply (f_equal length) in Heq.
  rewrite length_app, length_take in Heq. simpl in Heq. lia.
Qed.

(** The tree [scaffoldPackage] leaves: the four files on top of the tree in
    which the package directory has been ensured. *)
Lemma scaffoldPackage_shape (opts : ScaffoldOptions) (d d' : fs) :
  scaffoldPackage stringify opts d = Some d' →
  let dir := packageDir opts in
  ∃ d0,
    ensureDir dir d = Some d0 ∧
    d' = <[dir ++ ["index.ts"] := File (entryOf d dir)]>
         (<[dir ++ ["README.md"] := File (readme opts)]>
          (<[dir ++ ["tsconfig.json"] := File (stringify tsconfig +:+ Js.newline)]>
           (<[dir ++ ["package.json"] :=
                File (stringify (packageJson opts) +:+ Js.newline)]> d0))).
Proof.
  unfold scaffoldPackage. set (dir := packageDir opts). intros H.
  destruct (ensureDir dir d) as [d0|] eqn:H0; simpl in H; [|discriminate].
  destruct (writeFile (dir ++ ["package.json"]) _ d0) as [d1|] eqn:H1;
    simpl in H; [|discriminate].
  destruct (writeFile (dir ++ ["tsconfig.json"]) _ d1) as [d2|] eqn:H2;
    simpl in H; [|discriminate].
  destruct (writeFile (dir ++ ["README.md"]) _ d2) as [d3|] eqn:H3;
    simpl in H; [|discriminate].
  pose proof (mkdirs_dirs [] _ _ _ H0) as Hdirs. simpl in Hdirs.
  apply writeFile_into_inv in H1; [|done]. subst d1.
  apply writeFile_into_inv in H2; [|by apply insert_keeps_dirs]. subst d2.
  apply writeFile_into_inv in H3; [|by do 2 apply insert_keeps_dirs]. subst d3.
  apply writeFile_into_inv in H; [|by do 3 apply insert_keeps_dirs]. subst d'.
  exists d0. split; [done|]. do 3 f_equal.
  assert (∀ rel, rel ≠ [] → fileExists d0 (dir ++ rel) = fileExists d (dir ++ rel))
    as Hread.
  { intros rel Hrel. apply fileExists_ext, (mkdirs_lookup _ _ _ _ _ H0).
    rewrite length_app. destruct rel; [done|]. simpl. lia. }
  rewrite <- !Hread by done. do 2 f_equal. apply fileExists_ext.
  by rewrite !lookup_insert_ne by (intros Heq%app_inv_head; discriminate).
Qed.

Lemma scaffoldTargets_inv (dir q : list string) :
  q ∈ Notions.scaffoldTargets dir →
  ∃ name, name ∈ ["package.json"; "tsconfig.json"; "README.md"; "index.ts"] ∧
          q = dir ++ [name].
Proof.
  unfold Notions.scaffoldTargets. rewrite !elem_of_cons, elem_of_nil.
  intros [->|[->|[->|[->|[]]]]]; eexists; (split; [|done]);
    rewrite !elem_of_cons; auto 6.
Qed.

Lemma not_scaffoldTarget (dir rel : list string) :
  (∀ t, t ∈ ["package.json"; "tsconfig.json"; "README.md"; "index.ts"] →
        rel ≠ [t]) →
  dir ++ rel ∉ Notions.scaffoldTargets dir.
Proof.
  intros Hnot (name & Hname & Heq%app_inv_head)%scaffoldTargets_inv.
  by apply (Hnot name).
Qed.

Lemma scaffold_tree_lookup (dir : list string) (a b c e : node) (d0 : fs)
    (q : list string) :
  q ∉ Notions.scaffoldTargets dir →
  <[dir ++ ["index.ts"] := a]>
    (<[dir ++ ["README.md"] := b]>
      (<[dir ++ ["tsconfig.json"] := c]>
        (<[dir ++ ["package.json"] := e]> d0))) !! q = d0 !! q.
Proof.
  intros Hq. unfold Notions.scaffoldTargets in Hq.
  rewrite !lookup_insert_ne; [done|..]; intros <-; apply Hq;
    rewrite !elem_of_cons; auto 6.
Qed.

(** X24. [scaffoldPackage] adds to the generated tree and takes nothing
    away: whatever existed under any path other than the four files it
    writes is still there unchanged, and the four files are there. *)
Theorem scaffoldPackage_keeps_output (opts : ScaffoldOptions) (d d' : fs) :
  scaffoldPackage stringify opts d = Some d' →
  (∀ q x, q ∉ Notions.scaffoldTargets (packageDir opts) →
          d !! q = Some x → d' !! q = Some x) ∧
  (∀ t, t ∈ Notions.scaffoldTargets (packageDir opts) →
        ∃ content, d' !! t = Some (File content)).
Proof.
  intros (d0 & H0 & ->)%scaffoldPackage_shape. split.
  - intros q x Hq Hx. rewrite scaffold_tree_lookup by done.
    by apply (mkdirs_preserves _ _ _ _ _ _ H0).
  - intros t (name & Hname & ->)%scaffoldTargets_inv.
    rewrite !elem_of_cons, elem_of_nil in Hname.
    destruct Hname as [->|[->|[->|[->|[]]]]]; rewrite !lookup_insert;
      repeat case_decide; try done; eauto.
Qed.

(** X25. [scaffoldPackage] is idempotent: run again on the tree it left, it
    completes and leaves the same tree. *)
Theorem scaffoldPackage_idempotent (opts : ScaffoldOptions) (d d' : fs) :
  scaffoldPackage stringify opts d = Some d' →
  scaffoldPackage stringify opts d' = Some d'.
Proof.
  intros Hrun. pose proof Hrun as (d0 & H0 & Hd')%scaffoldPackage_shape.
  set (dir := packageDir opts) in *.
  pose proof (mkdirs_dirs [] _ _ _ H0) as Hdirs0. simpl in Hdirs0.
  assert (∀ k, (1 ≤ k ≤ length dir)%nat → d' !! take k dir = Some Dir) as Hdirs.
  { rewrite Hd'. by do 4 apply insert_keeps_dirs. }
  destruct (scaffoldPackage_completes stringify opts d') as [d'' Hagain].
  { intros k c Hk. fold dir. rewrite (Hdirs k Hk). discriminate. }
  { intros name Hname. fold dir. rewrite Hd', !lookup_insert.
    repeat case_decide; try discriminate.
    exfalso. repeat (apply elem_of_cons in Hname as [->|Hname]; [done|]).
    by apply elem_of_nil in Hname. }
  rewrite Hagain. f_equal.
  apply scaffoldPackage_shape in Hagain as (d0' & H0' & ->). fold dir in H0'.
  unfold ensureDir in H0'. rewrite mkdirs_present in H0' by done.
  injection H0' as <-.
  assert (∀ rel, rel ≠ [] →
            (∀ t, t ∈ ["package.json"; "tsconfig.json"; "README.md"; "index.ts"] →
                  rel ≠ [t]) →
            fileExists d' (dir ++ rel) = fileExists d (dir ++ rel)) as Hflag.
  { intros rel Hrel Hnot. apply fileExists_ext.
    rewrite Hd' at 1. rewrite scaffold_tree_lookup.
    - apply (mkdirs_lookup _ _ _ _ _ H0). rewrite length_app.
      destruct rel; [done|]. simpl. lia.
    - by apply not_scaffoldTarget. }
  fold dir.
  rewrite !Hflag
    by (try done; intros t Ht;
        repeat (apply elem_of_cons in Ht as [->|Ht]; [discriminate|]);
        by apply elem_of_nil in Ht).
  rewrite Hd'. apply map_eq. intros q.
  rewrite !lookup_insert. by repeat case_decide.
Qed.

Lemma writeFile_not_dir (p : list string) (content : string) (d d' : fs) :
  writeFile p content d = Some d' → d !! p ≠ Some Dir.
Proof.
  intros (d1 & Hmk & Hnot & _)%writeFile_Some Hdir. apply Hnot.
  by apply (mkdirs_preserves _ _ _ _ _ _ Hmk).
Qed.

Lemma writeFile_keeps (p q : list string) (content : string) (x : node)
    (d d' : fs) :
  writeFile p content d = Some d' → q ≠ p → d !! q = Some x → d' !! q = Some x.
Proof.
  intros (d1 & Hmk & _ & ->)%writeFile_Some Hq Hx.
  rewrite lookup_insert_ne by done. by apply (mkdirs_preserves _ _ _ _ _ _ Hmk).
Qed.

(** X26. [scaffoldPackage] fails when a file lies on the way to the package
    directory, or is in its place, and when one of the four files it writes
    is a directory.  (It can fail for other reasons too, such as missing
    permissions or a full disk, of which nothing is said.) *)
Theorem scaffoldPackage_blocked (opts : ScaffoldOptions) (d : fs) :
  (∃ k c, (1 ≤ k ≤ length (packageDir opts))%nat ∧
          d !! take k (packageDir opts) = Some (File c)) ∨
  (∃ name, name ∈ ["package.json"; "tsconfig.json"; "README.md"; "index.ts"] ∧
           d !! (packageDir opts ++ [name]) = Some Dir) →
  scaffoldPackage stringify opts d = None.
Proof.
  unfold scaffoldPackage. set (dir := packageDir opts). intros Hblocked.
  destruct (ensureDir dir d) as [d0|] eqn:H0; simpl; [|done].
  destruct Hblocked as [(k & c & Hk & Hfile) | (name & Hname & Hdir)].
  { exfalso. assert (ensureDir dir d = None) as Hnone; [|congruence].
    apply mkdirs_None_iff. by exists k, c. }
  apply (mkdirs_preserves _ _ _ _ _ _ H0) in Hdir.
  rewrite !elem_of_cons, elem_of_nil in Hname.
  destruct (writeFile (dir ++ ["package.json"]) _ d0) as [d1|] eqn:H1;
    simpl; [|done].
  destruct (writeFile (dir ++ ["tsconfig.json"]) _ d1) as [d2|] eqn:H2;
    simpl; [|done].
  destruct (writeFile (dir ++ ["README.md"]) _ d2) as [d3|] eqn:H3;
    simpl; [|done].
  match goal with
  | |- writeFile ?p ?c d3 = None =>
      destruct (writeFile p c d3) as [d4|] eqn:H4; [exfalso|done]
  end.
  assert (∀ a b : string, a ≠ b → dir ++ [a] ≠ dir ++ [b]) as Hne.
  { intros a b Hab Heq%app_inv_head. congruence. }
  destruct Hname as [->|[->|[->|[->|[]]]]].
  - by apply (writeFile_not_dir _ _ _ _ H1).
  - apply (writeFile_not_dir _ _ _ _ H2).
    apply (writeFile_keeps _ _ _ _ _ _ H1); [by apply Hne|done].
  - apply (writeFile_not_dir _ _ _ _ H3).
    apply (writeFile_keeps _ _ _ _ _ _ H2); [by apply Hne|].
    apply (writeFile_keeps _ _ _ _ _ _ H1); [by apply Hne|done].
  - apply (writeFile_not_dir _ _ _ _ H4).
    apply (writeFile_keeps _ _ _ _ _ _ H3); [by apply Hne|].
    apply (writeFile_keeps _ _ _ _ _ _ H2); [by apply Hne|].
    apply (writeFile_keeps _ _ _ _ _ _ H1); [by apply Hne|done].
Qed.

End ScaffoldMore.

Lemma scaffoldPackage_blocked_witness :
  Scaffold.scaffoldPackage Sample.stringify Sample.scaffoldOpts
    (<[ ["pkg"; "index.ts"] := Scaffold.Dir ]> Sample.generated) = None ∧
  Scaffold.scaffoldPackage Sample.stringify Sample.scaffoldOpts
    {[ ["pkg"] := Scaffold.File "" ]} = None.
Proof.
  split.
  - apply (scaffoldPackage_blocked Sample.stringify Sample.scaffoldOpts).
    right. exists "index.ts". split; [|vm_compute; reflexivity].
    rewrite !elem_of_cons. auto 6.
  - apply (scaffoldPackage_blocked Sample.stringify Sample.scaffoldOpts).
    left. exists 1%nat, "". split; [simpl; lia|]. vm_compute. reflexivity.
Defined.

Lemma scaffoldPackage_keeps_output_witness :
  ∃ d',
    Scaffold.scaffoldPackage Sample.stringify Sample.scaffoldOpts Sample.generated
    = Some d' ∧
    d' !! ["pkg"; "apis"; "index.ts"] = Some (Scaffold.File "").
Proof.
  assert (is_Some (Scaffold.scaffoldPackage Sample.stringify Sample.scaffoldOpts
                     Sample.generated)) as [d' Hrun].
  { apply (bool_decide_unpack _). vm_compute. exact I. }
  exists d'. split; [done|].
  destruct (scaffoldPackage_keeps_output Sample.stringify Sample.scaffoldOpts
              Sample.generated d' Hrun) as [Hkept _].
  apply Hkept; [|vm_compute; reflexivity].
  apply (not_scaffoldTarget ["pkg"] ["apis"; "index.ts"]). by intros t _.
Defined.

Lemma scaffoldPackage_idempotent_witness :
  ∃ d',
    Scaffold.scaffoldPackage Sample.stringify Sample.scaffoldOpts Sample.generated
    = Some d' ∧
    Scaffold.scaffoldPackage Sample.stringify Sample.scaffoldOpts d' = Some d'.
Proof.
  assert (is_Some (Scaffold.scaffoldPackage Sample.stringify Sample.scaffoldOpts
                     Sample.generated)) as [d' Hrun].
  { apply (bool_decide_unpack _). vm_compute. exact I. }
  exists d'. split; [done|].
  exact (scaffoldPackage_idempotent Sample.stringify Sample.scaffoldOpts
           Sample.generated d' Hrun).
Defined.

(** ** index.ts: the workspace root *)

Section WorkspaceRoot.

Import Workspace.

Variable probe : list string → completion string bool.

Lemma removelast_fixed {A : Type} (l : list A) : removelast l = l → l = [].
Proof.
  intros Heq. apply (f_equal length) in Heq.
  rewrite removelast_take, length_take in Heq.
  destruct l; [done|]. simpl in Heq. lia.
Qed.

(** What the loop returns when it starts in [dir] with enough rounds. *)
Lemma climb_spec (n : nat) (cwd dir : list string) :
  (length dir < n)%nat →
  ∃ r,
    climb probe n cwd dir = Some r ∧
    match r with
    | Return root =>
        (∃ k, (k ≤ length dir)%nat ∧ root = take k dir ∧
              probe root = Return true ∧
              ∀ k', (k < k' ≤ length dir)%nat →
                    probe (take k' dir) = Return false) ∨
        (root = cwd ∧
         ∀ k', (k' ≤ length dir)%nat → probe (take k' dir) = Return false)
    | Throw msg =>
        ∃ k, (k ≤ length dir)%nat ∧ probe (take k dir) = Throw msg ∧
             ∀ k', (k < k' ≤ length dir)%nat →
                   probe (take k' dir) = Return false
    end.
Proof.
  revert dir. induction n as [|n IH]; intros dir Hn; [lia|]. simpl.
  destruct (probe dir) as [[|]|msg] eqn:Hprobe.
  - exists (Return dir). split; [done|]. left. exists (length dir).
    rewrite firstn_all. repeat split; [lia|done|]. intros k' Hk'. lia.
  - case_bool_decide as Hroot.
    + apply removelast_fixed in Hroot as ->. exists (Return cwd).
      split; [done|]. right. split; [done|].
      intros k' Hk'. by rewrite take_nil.
    + assert (length (removelast dir) = (length dir - 1)%nat) as Hlen.
      { rewrite removelast_take, length_take. lia. }
      assert (dir ≠ []) as Hne by (by intros ->).
      assert (0 < length dir)%nat as Hpos by (destruct dir; [done|simpl; lia]).
      destruct (IH (removelast dir)) as (r & Hr & Hspec); [lia|].
      exists r. split; [done|].
      assert (∀ k, (k ≤ length (removelast dir))%nat →
                take k (removelast dir) = take k dir) as Htake.
      { intros k Hk. apply take_removelast. lia. }
      assert (∀ k, (∀ k', (k < k' ≤ length (removelast dir))%nat →
                      probe (take k' (removelast dir)) = Return false) →
                ∀ k', (k < k' ≤ length dir)%nat →
                      probe (take k' dir) = Return false) as Hup.
      { intros k Hbelow k' Hk'.
        destruct (decide (k' = length dir)) as [->|Hk''].
        - by rewrite firstn_all.
        - rewrite <- Htake by lia. apply Hbelow. lia. }
      destruct r as [root|msg'].
      * destruct Hspec as [(k & Hk & -> & Hmark & Hbelow)|[-> Hnone]].
        -- left. exists k. rewrite Htake in * by done.
           repeat split; [lia|done|]. by apply Hup.
        -- right. split; [done|]. intros k' Hk'.
           destruct (decide (k' = 0)%nat) as [->|?].
           ++ rewrite <- (Htake 0%nat) by lia. apply Hnone. lia.
           ++ apply (Hup 0%nat); [|lia]. intros k'' Hk''. apply Hnone. lia.
      * destruct Hspec as (k & Hk & Hthrow & Hbelow). exists k.
        rewrite Htake in Hthrow by done. repeat split; [lia|done|].
        by apply Hup.
  - exists (Throw msg). split; [done|]. exists (length dir).
    rewrite firstn_all. repeat split; [lia|done|]. intros k' Hk'. lia.
Qed.

(** X27. The loop of [workspaceRootDir] always ends.  It returns the nearest
    directory, from the current directory upward, that holds a workspace
    marker; the current directory itself when no directory up to the root
    holds one; and when reading a [package.json] throws, the error is that
    of the first directory on the way up whose test throws. *)
Theorem workspaceRootDir_nearest (cwd : list string) :
  ∃ r,
    workspaceRootDir probe cwd = Some r ∧
    match r with
    | Return root =>
        (∃ k, (k ≤ length cwd)%nat ∧ root = take k cwd ∧
              probe root = Return true ∧
              ∀ k', (k < k' ≤ length cwd)%nat →
                    probe (take k' cwd) = Return false) ∨
        (root = cwd ∧
         ∀ k', (k' ≤ length cwd)%nat → probe (take k' cwd) = Return false)
    | Throw msg =>
        ∃ k, (k ≤ length cwd)%nat ∧ probe (take k cwd) = Throw msg ∧
             ∀ k', (k < k' ≤ length cwd)%nat →
                   probe (take k' cwd) = Return false
    end.
Proof. unfold workspaceRootDir. apply climb_spec. lia. Qed.

End WorkspaceRoot.

Lemma isStableVersion_false_iff_witness :
  Cli.isStableVersion "7.1-RC1" = false.
Proof.
  apply (isStableVersion_false_iff "7.1-RC1").
  exists "rc". split; [rewrite !elem_of_cons; auto|].
  by exists "7.1-", "RC", "1".
Defined.

(** ** index.ts: the [generate] action *)

Section GenerateFacts.

Variable env : Generate.Env.

Lemma downloads_app (t1 t2 : list Bulk.Event) :
  Generate.downloads (t1 ++ t2)
  = Generate.downloads t1 ++ Generate.downloads t2.
Proof.
  induction t1 as [|e t1 IH]; simpl; [done|]. destruct e; simpl; by rewrite ?IH.
Qed.


(** X29. After the document is chosen, [generate] calls [downloadSpecTo]
    for it exactly once when the cache is disabled or does not hold the
    document and the directory of the cached document could be created; it
    does not call it when the cache is enabled and holds the document, nor
    when [ensureDir] fails on that directory. *)
Theorem generate_downloads (opts : Generate.Options)
    (s : Bulk.State (Generate.base env)) (jsons : list string)
    (w1 : Bulk.W (Generate.base env)) (chosen : string) :
  Bulk.listJsonFiles (Generate.base env) (Generate.api opts)
    (Generate.apiVersion opts) (Generate.ref opts) (Bulk.world _ s)
  = (Return jsons, w1) →
  Github.pickSpecFile (Generate.api opts) jsons (Generate.file opts)
  = Return chosen →
  let cachePath :=
    Generate.cachePathOf env (Generate.ref opts) (Generate.api opts)
      (Generate.apiVersion opts) chosen in
  Generate.downloads (Bulk.trace _ (Generate.generate env opts s).2)
  = Generate.downloads (Bulk.trace _ s) ++
    (if Generate.cache opts && Generate.existsSync env cachePath w1 then []
     else
       match Generate.ensureParentDir env cachePath w1 with
       | (Return _, _) => [chosen]
       | (Throw _, _) => []
       end).
Proof.
  intros Hlist Hpick cachePath. subst cachePath.
  unfold Generate.generate, Generate.tryBlock, Generate.inspect, Generate.step,
    Bulk.tryCatch, Bulk.bind, Bulk.call, Bulk.pickSpecFileM, Bulk.die,
    Bulk.consoleLog, Bulk.consoleError, Bulk.emit, Bulk.exit, Bulk.throw,
    Bulk.ret.
  rewrite Hlist, Hpick. simpl.
  repeat (case_match; simplify_eq/=);
    rewrite ?downloads_app; simpl; by rewrite ?app_nil_r.
Qed.

End GenerateFacts.

Lemma generate_downloads_witness :
  Generate.downloads
    (Bulk.trace _
       (Generate.generate Sample2.generateEnv (Sample2.generateOpts true)
          Sample.start).2) = [] ∧
  Generate.downloads
    (Bulk.trace _
       (Generate.generate Sample2.generateEnv (Sample2.generateOpts false)
          Sample.start).2) = ["git.json"] ∧
  Generate.downloads
    (Bulk.trace _
       (Generate.generate Sample2.readOnlyEnv (Sample2.generateOpts true)
          Sample.start).2) = [].
Proof.
  split; [|split].
  - rewrite (generate_downloads Sample2.generateEnv (Sample2.generateOpts true)
               Sample.start ["git.json"] tt "git.json"); reflexivity.
  - rewrite (generate_downloads Sample2.generateEnv (Sample2.generateOpts false)
               Sample.start ["git.json"] tt "git.json"); reflexivity.
  - rewrite (generate_downloads Sample2.readOnlyEnv (Sample2.generateOpts true)
               Sample.start ["git.json"] tt "git.json"); reflexivity.
Defined.

Lemma workspaceRootDir_nearest_witness :
  ∃ r,
    Workspace.workspaceRootDir Sample2.probe
      ["home"; "me"; "repo"; "packages"; "sdk-gen"] = Some r.
Proof.
  destruct (workspaceRootDir_nearest Sample2.probe
              ["home"; "me"; "repo"; "packages"; "sdk-gen"]) as (r & Hr & _).
  by exists r.
Defined.
